(** * Stepwise A* path finding on the farm grid (main.py)

    A shallow embedding of [Cell], [AStarPathfinder] and [setup] of
    main.py, together with the binary heap of Python's [heapq] module that
    the open set is kept in, and the properties of the search engine that
    follow from the code.

    Cell objects are identified by their grid coordinates: [setup] creates
    exactly one [Cell(i, j)] per coordinate, so object identity (the [==]
    and the set membership of the source, [Cell] defines neither [__eq__]
    nor [__hash__]) coincides with equality of coordinates.  The mutable
    fields of all cells live in one store, a finite map from coordinates to
    records; a cell that was never written is in the state its constructor
    leaves it in. *)

From stdpp Require Import base gmap sets list strings.
From Stdlib Require Import ZArith Lia.

Local Open Scope Z_scope.
Local Set Warnings "-clear-no-such-hyp".

(** ** Grid dimensions *)

Definition COLS : Z := 80.
Definition ROWS : Z := 65.

(** ** Cells *)

Definition pos : Type := (Z * Z)%type.

Module Cell.
(** The search fields of [class Cell]; [x] and [y] are the key of the
    store, [neighbors] is recomputed by [add_neighbors] below. *)
Record t : Type := mk {
  f : Z;
  g : Z;
  h : Z;
  parent : option pos;
  obstacle : bool
}.

(** [Cell.__init__] *)
Definition init : t := mk 0 0 0 None false.

Definition set_obstacle (b : bool) (c : t) : t :=
  mk (f c) (g c) (h c) (parent c) b.
End Cell.

(** The store of all cell objects; reading a cell that was never written
    gives the freshly constructed one. *)
Definition cell (m : gmap pos Cell.t) (p : pos) : Cell.t :=
  default Cell.init (m !! p).

(** ** heapq

    [import heapq]: the list-based binary heap of the Python standard
    library ([heappush], [heappop], [_siftdown], [_siftup]), over an
    arbitrary strict comparison [lt] (Python's [<] on the items).  The
    two [while] loops run on fuel: the position halves in [_siftdown] and
    at least doubles in [_siftup], so the length of the list is enough. *)

Section heapq.
Context {A : Type}.
Variable lt : A → A → bool.

(** The loop of [_siftdown(heap, startpos, pos)], [newitem] already read. *)
Fixpoint siftdown_loop (fuel : nat) (heap : list A) (startpos pos : nat)
    (newitem : A) : list A :=
  match fuel with
  | O => <[pos := newitem]> heap
  | S fuel' =>
      if bool_decide (startpos < pos)%nat then
        let parentpos := ((pos - 1) / 2)%nat in
        match heap !! parentpos with
        | Some parent =>
            if lt newitem parent
            then siftdown_loop fuel' (<[pos := parent]> heap) startpos parentpos newitem
            else <[pos := newitem]> heap
        | None => <[pos := newitem]> heap
        end
      else <[pos := newitem]> heap
  end.

Definition siftdown (heap : list A) (startpos pos : nat) : list A :=
  match heap !! pos with
  | Some newitem => siftdown_loop pos heap startpos pos newitem
  | None => heap
  end.

(** [childpos = rightpos] when there is a right child that is not larger
    than the left one. *)
Definition smaller_child (heap : list A) (endpos childpos : nat) : nat :=
  let rightpos := (childpos + 1)%nat in
  match heap !! childpos, heap !! rightpos with
  | Some l, Some r =>
      if bool_decide (rightpos < endpos)%nat && negb (lt l r)
      then rightpos else childpos
  | _, _ => childpos
  end.

(** The loop of [_siftup]: bubbles the smaller child up until a leaf is
    reached; returns the list and the position of the leaf. *)
Fixpoint siftup_loop (fuel : nat) (heap : list A) (endpos pos : nat)
    : list A * nat :=
  match fuel with
  | O => (heap, pos)
  | S fuel' =>
      let childpos := (2 * pos + 1)%nat in
      if bool_decide (childpos < endpos)%nat then
        let childpos := smaller_child heap endpos childpos in
        match heap !! childpos with
        | Some c => siftup_loop fuel' (<[pos := c]> heap) endpos childpos
        | None => (heap, pos)
        end
      else (heap, pos)
  end.

Definition siftup (heap : list A) (pos : nat) : list A :=
  match heap !! pos with
  | Some newitem =>
      let '(heap', leaf) := siftup_loop (length heap) heap (length heap) pos in
      siftdown (<[leaf := newitem]> heap') pos leaf
  | None => heap
  end.

Definition heappush (heap : list A) (item : A) : list A :=
  let heap := heap ++ [item] in
  siftdown heap 0 (length heap - 1).

(** [None] is the [IndexError] of [heap.pop()] on an empty list. *)
Definition heappop (heap : list A) : option (A * list A) :=
  match last heap with
  | None => None
  | Some lastelt =>
      let heap := take (length heap - 1) heap in
      match heap with
      | [] => Some (lastelt, [])
      | returnitem :: _ => Some (returnitem, siftup (<[0%nat := lastelt]> heap) 0)
      end
  end.
End heapq.

Section heap_order.
Context {A : Type}.
Variable key : A → Z.

(** The item at index [i] is not larger than the item at index [j]. *)
Definition ord (heap : list A) (i j : nat) : Prop :=
  ∀ x y, heap !! i = Some x → heap !! j = Some y → key x ≤ key y.

(** The heap invariant of [heapq]: [heap[(k-1)//2] <= heap[k]] for all
    [k > 0], read on the keys. *)
Definition heap_ok (heap : list A) : Prop :=
  ∀ i, (0 < i)%nat → ord heap ((i - 1) / 2) i.
End heap_order.

(** ** Entries of the open set

    The open set holds tuples [(f, cell)].  Python compares tuples
    lexicographically: the first components by [==] and [<] on integers,
    and, when these are equal and the two cells are different objects, the
    cells by [Cell.__lt__], which reads the cells' current [f]. *)

Definition entry : Type := (Z * pos)%type.

Definition Cell_lt (m : gmap pos Cell.t) (a b : pos) : bool :=
  Cell.f (cell m a) <? Cell.f (cell m b).

Definition entry_lt (m : gmap pos Cell.t) (a b : entry) : bool :=
  if bool_decide (a.1 = b.1) then
    if bool_decide (a.2 = b.2) then false else Cell_lt m a.2 b.2
  else a.1 <? b.1.

(** ** The search engine *)

Inductive exn : Type := IndexError | InvalidEndpoint | InvalidGrid.

Record AStarPathfinder : Type := mkAStarPathfinder {
  grid : gmap pos Cell.t;
  start : pos;
  end_ : pos;
  open_set : list entry;
  closed_set : gset pos;
  current : option pos;
  path : list pos;
  found : bool
}.

Section Engine.
(** The grid shape that [add_neighbors] reads from the module constants. *)
Variables cols rows : Z.

Definition in_bounds (p : pos) : Prop :=
  0 ≤ p.1 < cols ∧ 0 ≤ p.2 < rows.

(** [Cell.add_neighbors]: the neighbor list of the cell at [p], in the
    order of the four [if]s. *)
Definition add_neighbors (p : pos) : list pos :=
  let '(x, y) := p in
  (if bool_decide (x < cols - 1) then [(x + 1, y)] else []) ++
  (if bool_decide (x > 0) then [(x - 1, y)] else []) ++
  (if bool_decide (y < rows - 1) then [(x, y + 1)] else []) ++
  (if bool_decide (y > 0) then [(x, y - 1)] else []).

(** [AStarPathfinder.__init__]: no check, no exception. *)
Definition AStarPathfinder_init (gr : gmap pos Cell.t) (st en : pos)
    : exn + AStarPathfinder :=
  inr (mkAStarPathfinder gr st en
         (heappush (entry_lt gr) [] (Cell.f (cell gr st), st))
         ∅ None [] false).

Definition heuristic (a b : pos) : Z :=
  Z.abs (a.1 - b.1) + Z.abs (a.2 - b.2).

Definition cost (a b : pos) : Z := 1.

(** [any(node == neighbor for _, node in self.open_set)] *)
Definition in_open (open : list entry) (neighbor : pos) : bool :=
  existsb (λ e : entry, bool_decide (e.2 = neighbor)) open.

(** The body of [for neighbor in self.current.neighbors], on the cell
    store and the open set. *)
Definition relax (en cur : pos) (closed : gset pos)
    (st : gmap pos Cell.t * list entry) (neighbor : pos)
    : gmap pos Cell.t * list entry :=
  let '(gr, open) := st in
  if bool_decide (neighbor ∉ closed) && negb (Cell.obstacle (cell gr neighbor)) then
    let tentative_g := Cell.g (cell gr cur) + cost cur neighbor in
    let io := in_open open neighbor in
    if negb io || (tentative_g <? Cell.g (cell gr neighbor)) then
      let hv := heuristic neighbor en in
      let c := Cell.mk (tentative_g + hv) tentative_g hv (Some cur)
                 (Cell.obstacle (cell gr neighbor)) in
      let gr' := <[neighbor := c]> gr in
      if negb io
      then (gr', heappush (entry_lt gr') open (Cell.f c, neighbor))
      else (gr', open)
    else st
  else st.

(** [AStarPathfinder.step]: the new engine and the returned flag. *)
Definition step (s : AStarPathfinder) : exn + (AStarPathfinder * bool) :=
  if bool_decide (0 < length (open_set s))%nat && negb (found s) then
    match heappop (entry_lt (grid s)) (open_set s) with
    | None => inl IndexError
    | Some ((_, cur), open) =>
        if bool_decide (cur = end_ s) then
          inr (mkAStarPathfinder (grid s) (start s) (end_ s) open
                 (closed_set s) (Some cur) (path s) true, true)
        else
          let closed := {[cur]} ∪ closed_set s in
          let '(gr, open) :=
            foldl (relax (end_ s) cur closed) (grid s, open) (add_neighbors cur) in
          inr (mkAStarPathfinder gr (start s) (end_ s) open closed
                 (Some cur) (path s) (found s), found s)
    end
  else if bool_decide (length (open_set s) = 0%nat) && negb (found s) then
    inr (mkAStarPathfinder (grid s) (start s) (end_ s) (open_set s)
           (closed_set s) (current s) (path s) true, true)
  else inr (s, found s).

(** The loop [while temp: path.append(temp); temp = temp.parent];
    [None] when the fuel runs out before a cell without parent. *)
Fixpoint parent_walk (fuel : nat) (gr : gmap pos Cell.t) (temp : option pos)
    : option (list pos) :=
  match temp with
  | None => Some []
  | Some c =>
      match fuel with
      | O => None
      | S fuel' => cons c <$> parent_walk fuel' gr (Cell.parent (cell gr c))
      end
  end.

(** [AStarPathfinder.get_path] *)
Definition get_path (fuel : nat) (s : AStarPathfinder) : option (list pos) :=
  match current s with
  | None => Some []
  | Some c => parent_walk fuel (grid s) (Some c)
  end.

(** [get_open_nodes] *)
Definition get_open_nodes (s : AStarPathfinder) : list pos :=
  (open_set s).*2.

(** ** setup *)

(** [grid[i][j]] on the list of lists: a negative index counts from the
    end, an index outside [-len, len) raises [IndexError]. *)
Definition py_index (len i : Z) : exn + Z :=
  if bool_decide (0 ≤ i < len) then inr i
  else if bool_decide (- len ≤ i < 0) then inr (len + i)
  else inl IndexError.

Definition grid_index (p : Z * Z) : exn + pos :=
  match py_index cols p.1 with
  | inl e => inl e
  | inr x =>
      match py_index rows p.2 with
      | inl e => inl e
      | inr y => inr (x, y)
      end
  end.

Definition set_obstacle (b : bool) (p : pos) (gr : gmap pos Cell.t)
    : gmap pos Cell.t :=
  <[p := Cell.set_obstacle b (cell gr p)]> gr.

(** [for x, y in obstacles: if 0 <= x < COLS and 0 <= y < ROWS: ...] *)
Definition load_obstacle (gr : gmap pos Cell.t) (o : Z * Z) : gmap pos Cell.t :=
  if bool_decide (0 ≤ o.1 < cols) && bool_decide (0 ≤ o.2 < rows)
  then set_obstacle true o gr else gr.

(** [setup], on what the two loaders return: the obstacle list and the
    two points, if the points file could be read. *)
Definition setup (obstacles : list (Z * Z)) (points : option ((Z * Z) * (Z * Z)))
    : exn + (gmap pos Cell.t * pos * pos) :=
  let gr := foldl load_obstacle ∅ obstacles in
  let '(start_pos, end_pos) :=
    match points with
    | Some p => p
    | None => ((64, 15), (6, 51))
    end in
  match grid_index start_pos with
  | inl e => inl e
  | inr st =>
      match grid_index end_pos with
      | inl e => inl e
      | inr en => inr (set_obstacle false en (set_obstacle false st gr), st, en)
      end
  end.

(** The first two lines of the set-up in [main]:
    [grid, start, end = setup(...)] and
    [pathfinder = AStarPathfinder(grid, start, end)]. *)
Definition launch (obstacles : list (Z * Z)) (points : option ((Z * Z) * (Z * Z)))
    : exn + AStarPathfinder :=
  match setup obstacles points with
  | inl e => inl e
  | inr (gr, st, en) => AStarPathfinder_init gr st en
  end.

(** ** Runs *)

(** One call of [step] by the driver loop; the engine is left as it is
    should the call raise. *)
Definition exec_step (s : AStarPathfinder) : AStarPathfinder :=
  match step s with
  | inr (s', _) => s'
  | inl _ => s
  end.

Fixpoint run (n : nat) (s : AStarPathfinder) : AStarPathfinder :=
  match n with
  | O => s
  | S n' => run n' (exec_step s)
  end.

(** The cell that the next call of [step] expands (pops, closes and
    scans), if it expands one. *)
Definition expands (s : AStarPathfinder) : option pos :=
  if bool_decide (0 < length (open_set s))%nat && negb (found s) then
    match heappop (entry_lt (grid s)) (open_set s) with
    | Some ((_, cur), _) => if bool_decide (cur = end_ s) then None else Some cur
    | None => None
    end
  else None.

(** The cells expanded by the first [n] calls of [step], in order. *)
Fixpoint expansions (n : nat) (s : AStarPathfinder) : list pos :=
  match n with
  | O => []
  | S n' => option_list (expands s) ++ expansions n' (exec_step s)
  end.

(** ** Invariants of a run *)

(** Every cell is as its constructor left it, up to the obstacle flag. *)
Definition fresh (gr : gmap pos Cell.t) : Prop :=
  ∀ p, Cell.f (cell gr p) = 0 ∧ Cell.g (cell gr p) = 0 ∧
       Cell.parent (cell gr p) = None.

(** What holds of the cell store, the open set and the closed set at
    every point of a run, also between two iterations of the neighbor
    loop. *)
Record store_ok (st : pos) (gr : gmap pos Cell.t) (open : list entry)
    (closed : gset pos) : Prop := {
  ok_nodup : NoDup open.*2;
  ok_disjoint : ∀ c, c ∈ open.*2 → c ∉ closed;
  ok_bounds : ∀ c, c ∈ open.*2 ∨ c ∈ closed → in_bounds c;
  ok_start : Cell.parent (cell gr st) = None;
  ok_parent : ∀ c p, Cell.parent (cell gr c) = Some p →
                p ∈ closed ∧ Cell.g (cell gr c) = Cell.g (cell gr p) + 1;
  ok_g : ∀ c, 0 ≤ Cell.g (cell gr c);
  ok_linked : ∀ c, c ∈ open.*2 ∨ c ∈ closed → c ≠ st →
                is_Some (Cell.parent (cell gr c));
  ok_heap : heap_ok fst open
}.

Record engine_ok (s : AStarPathfinder) : Prop := {
  eng_store : store_ok (start s) (grid s) (open_set s) (closed_set s);
  eng_start : start s ∈ closed_set s ∨ ∀ c, c ∈ (open_set s).*2 → c = start s;
  eng_current : ∀ c, current s = Some c →
                  c = start s ∨ is_Some (Cell.parent (cell (grid s) c));
  eng_goal : current s = Some (end_ s) → found s = true
}.

(** Consecutive cells of [l] are linked by [parent]. *)
Definition chain (gr : gmap pos Cell.t) (l : list pos) : Prop :=
  ∀ i a b, l !! i = Some a → l !! S i = Some b →
           Cell.parent (cell gr a) = Some b.

(** All cells of the grid, column by column. *)
Definition all_cells : list pos :=
  list_prod (seqZ 0 cols) (seqZ 0 rows).

(** ** Routes

    A 4-directional route from [st] to [en] on the grid: it starts at
    [st], ends at [en], stays on free cells inside the grid, and moves by
    one cell along one axis at a time. *)
Definition free_cell (gr : gmap pos Cell.t) (p : pos) : bool :=
  bool_decide (0 ≤ p.1 < cols) && bool_decide (0 ≤ p.2 < rows) &&
  negb (Cell.obstacle (cell gr p)).

Fixpoint linked_moves (l : list pos) : bool :=
  match l with
  | a :: (b :: _) as l' => bool_decide (heuristic a b = 1) && linked_moves l'
  | _ => true
  end.

Definition route (gr : gmap pos Cell.t) (st en : pos) (l : list pos) : bool :=
  bool_decide (head l = Some st) && bool_decide (last l = Some en) &&
  forallb (free_cell gr) l && linked_moves l.
End Engine.

(** ** Set-ups on the farm grid *)

(** The engine [main] starts stepping, for the obstacle list and the points
    that the two loaders return, on the 80 x 65 grid. *)
Definition farm (obstacles : list (Z * Z)) (points : option ((Z * Z) * (Z * Z)))
    : AStarPathfinder :=
  match launch COLS ROWS obstacles points with
  | inr s => s
  | inl _ => mkAStarPathfinder ∅ (0, 0) (0, 0) [] ∅ None [] true
  end.

(** A pocket of 7 x 4 cells in the corner of the farm, closed by a wall
    along [x = 7] and [y = 4], with five obstacles inside. *)
Definition pocket_obstacles : list (Z * Z) :=
  [(0, 0); (0, 1); (2, 1); (5, 0); (5, 1);
   (7, 0); (7, 1); (7, 2); (7, 3);
   (0, 4); (1, 4); (2, 4); (3, 4); (4, 4); (5, 4); (6, 4)].

Definition pocket_points : (Z * Z) * (Z * Z) := ((1, 1), (6, 0)).

(** The start cell fenced in by two obstacles in the corner of the farm. *)
Definition fenced_obstacles : list (Z * Z) := [(1, 0); (0, 1)].

Definition fenced_points : (Z * Z) * (Z * Z) := ((0, 0), (5, 5)).


(** ** The state of the engine *)

(** The three states of the search, as they are read off the attributes
    [found], [current] and [end] of the engine. *)
Inductive status : Type := RUNNING | FOUND | EXHAUSTED.

Definition status_of (s : AStarPathfinder) : status :=
  if found s then
    if bool_decide (current s = Some (end_ s)) then FOUND else EXHAUSTED
  else RUNNING.

(** What a call of [step] prints: the two [print]s of its two ending
    branches. *)
Definition step_prints (s : AStarPathfinder) : option string :=
  if bool_decide (0 < length (open_set s))%nat && negb (found s) then
    match heappop (entry_lt (grid s)) (open_set s) with
    | Some ((_, cur), _) =>
        if bool_decide (cur = end_ s) then Some "Path found!"%string else None
    | None => None
    end
  else if bool_decide (length (open_set s) = 0%nat) && negb (found s) then
    Some "No solution found"%string
  else None.

(** ** Invariants of the search *)

Section Search_invariants.
Variables cols rows : Z.

(** Every free neighbor of [c] is closed or has an entry in the open set. *)
Definition covered (gr : gmap pos Cell.t) (open : list entry)
    (closed : gset pos) (c : pos) : Prop :=
  ∀ n, n ∈ add_neighbors cols rows c → Cell.obstacle (cell gr n) = false →
       n ∈ closed ∨ n ∈ open.*2.

(** What the records of the cells say about the search, relative to the
    cell store [gr0] the engine was constructed on. *)
Record search_ok (gr0 : gmap pos Cell.t) (st en : pos) (gr : gmap pos Cell.t)
    (open : list entry) (closed : gset pos) : Prop := {
  sk_obstacle : ∀ p, Cell.obstacle (cell gr p) = Cell.obstacle (cell gr0 p);
  sk_parent : ∀ c p, Cell.parent (cell gr c) = Some p →
                c ∈ add_neighbors cols rows p ∧ Cell.obstacle (cell gr c) = false;
  sk_estimate : ∀ c, is_Some (Cell.parent (cell gr c)) →
                  Cell.h (cell gr c) = heuristic c en ∧
                  Cell.f (cell gr c) = Cell.g (cell gr c) + Cell.h (cell gr c);
  sk_entry : ∀ e : entry, e ∈ open → Cell.f (cell gr e.2) ≤ e.1;
  sk_start : Cell.g (cell gr st) = 0 ∧ Cell.obstacle (cell gr st) = false;
  sk_goal : en ∉ closed
}.

Record engine_search_ok (gr0 : gmap pos Cell.t) (s : AStarPathfinder) : Prop := {
  es_search : search_ok gr0 (start s) (end_ s) (grid s) (open_set s) (closed_set s);
  es_cover :
    (current s = Some (end_ s) ∧ found s = true) ∨
    ((start s ∈ closed_set s ∨ start s ∈ (open_set s).*2) ∧
     (∀ c, c ∈ closed_set s → covered (grid s) (open_set s) (closed_set s) c) ∧
     (found s = true → open_set s = []))
}.
End Search_invariants.

(** * Facts about the heap *)

Section heapq_perm.
Context {A : Type}.
Variable lt : A → A → bool.

Lemma parent_pos_facts (i : nat) :
  (0 < i)%nat → ((i - 1) / 2 < i)%nat ∧
     (i = 2 * ((i - 1) / 2) + 1 ∨ i = 2 * ((i - 1) / 2) + 2)%nat.
Proof.
  intros Hi.
  pose proof (Nat.div_mod_eq (i - 1) 2) as E.
  pose proof (Nat.mod_upper_bound (i - 1) 2) as U.
  lia.
Qed.

Lemma parent_pos_of_child (p c : nat) :
  (c = 2 * p + 1 ∨ c = 2 * p + 2)%nat → ((c - 1) / 2 = p)%nat.
Proof.
  intros Hc.
  pose proof (Nat.div_mod_eq (c - 1) 2) as E.
  pose proof (Nat.mod_upper_bound (c - 1) 2) as U.
  lia.
Qed.

Lemma hole_move (heap : list A) (i j : nat) (x y : A) :
  (i < length heap)%nat → heap !! j = Some y → i ≠ j →
  <[j := x]> (<[i := y]> heap) ≡ₚ <[i := x]> heap.
Proof.
  intros Hi Hj Hne.
  rewrite <- (list_insert_insert_eq heap i y x).
  rewrite (list_insert_insert_ne _ j i) by done.
  rewrite <- (list_insert_insert_ne _ i j) by done.
  rewrite (list_insert_insert_ne _ i j) by done.
  apply Permutation_insert_swap.
  - rewrite list_lookup_insert_ne by done. exact Hj.
  - apply list_lookup_insert_eq. exact Hi.
Qed.

Lemma siftdown_loop_perm (fuel : nat) :
  ∀ (heap : list A) (startpos pos : nat) (newitem : A),
    (pos < length heap)%nat →
    siftdown_loop lt fuel heap startpos pos newitem ≡ₚ <[pos := newitem]> heap.
Proof.
  induction fuel as [|fuel IH]; intros heap startpos pos newitem Hpos; cbn [siftdown_loop].
  - reflexivity.
  - case_bool_decide as Hs; [|reflexivity].
    destruct (heap !! ((pos - 1) / 2)%nat) as [parent|] eqn:Hp; [|reflexivity].
    destruct (lt newitem parent); [|reflexivity].
    destruct (parent_pos_facts pos) as [Hlt _]; [lia|].
    rewrite IH by (rewrite length_insert; lia).
    apply hole_move; [done|done|lia].
Qed.

Lemma siftdown_perm (heap : list A) (startpos pos : nat) :
  siftdown lt heap startpos pos ≡ₚ heap.
Proof.
  unfold siftdown. destruct (heap !! pos) as [newitem|] eqn:Hp; [|reflexivity].
  rewrite siftdown_loop_perm by (eapply lookup_lt_Some; done).
  by rewrite list_insert_id.
Qed.

Lemma smaller_child_cases (heap : list A) (endpos childpos : nat) :
  smaller_child lt heap endpos childpos = childpos ∨
  smaller_child lt heap endpos childpos = (childpos + 1)%nat.
Proof.
  unfold smaller_child.
  destruct (heap !! childpos), (heap !! (childpos + 1)%nat); auto.
  destruct (_ && _); auto.
Qed.

Lemma siftup_loop_perm (fuel : nat) :
  ∀ (heap heap' : list A) (endpos pos leaf : nat),
    (pos < length heap)%nat →
    siftup_loop lt fuel heap endpos pos = (heap', leaf) →
    (leaf < length heap')%nat ∧ length heap' = length heap ∧
    ∀ x, <[leaf := x]> heap' ≡ₚ <[pos := x]> heap.
Proof.
  induction fuel as [|fuel IH]; intros heap heap' endpos pos leaf Hpos; cbn [siftup_loop].
  - intros [= <- <-]. done.
  - case_bool_decide as Hc; [|by intros [= <- <-]].
    set (c := smaller_child lt heap endpos (2 * pos + 1)).
    destruct (heap !! c) as [y|] eqn:Hy; [|by intros [= <- <-]].
    intros Hrec.
    assert (c ≠ pos) as Hne.
    { destruct (smaller_child_cases heap endpos (2 * pos + 1)); subst c; lia. }
    apply IH in Hrec as (Hleaf & Hlen & Hperm).
    + rewrite length_insert in Hlen. split_and!; [done|done|].
      intros x. rewrite Hperm. apply hole_move; done.
    + rewrite length_insert. eapply lookup_lt_Some; done.
Qed.

Lemma siftup_perm (heap : list A) (pos : nat) :
  siftup lt heap pos ≡ₚ heap.
Proof.
  unfold siftup. destruct (heap !! pos) as [newitem|] eqn:Hp; [|reflexivity].
  destruct (siftup_loop lt (length heap) heap (length heap) pos)
    as [heap' leaf] eqn:Hloop.
  apply siftup_loop_perm in Hloop as (_ & _ & Hperm);
    [|eapply lookup_lt_Some; done].
  rewrite siftdown_perm, Hperm. by rewrite list_insert_id.
Qed.

Lemma heappush_perm (heap : list A) (item : A) :
  heappush lt heap item ≡ₚ item :: heap.
Proof.
  unfold heappush. rewrite siftdown_perm.
  symmetry. apply Permutation_cons_append.
Qed.

Lemma heappop_nil : heappop lt [] = None.
Proof. done. Qed.

Lemma heappop_is_Some (heap : list A) :
  (0 < length heap)%nat → is_Some (heappop lt heap).
Proof.
  intros Hlen. unfold heappop.
  destruct (last heap) as [lastelt|] eqn:Hl.
  - destruct (take (length heap - 1) heap); eauto.
  - apply last_None in Hl. subst. simpl in Hlen. lia.
Qed.

Lemma heappop_perm (heap heap' : list A) (item : A) :
  heappop lt heap = Some (item, heap') → heap ≡ₚ item :: heap'.
Proof.
  unfold heappop. destruct (last heap) as [lastelt|] eqn:Hl; [|done].
  apply last_Some in Hl as [l ->].
  rewrite length_app. simpl.
  replace (length l + 1 - 1)%nat with (length l) by lia.
  rewrite take_app_length.
  destruct l as [|returnitem l]; intros [= <- <-].
  - done.
  - rewrite siftup_perm. simpl.
    rewrite <- Permutation_cons_append. done.
Qed.
End heapq_perm.

Section heapq_order.
Context {A : Type}.
Variable key : A → Z.
Variable lt : A → A → bool.
Hypothesis lt_true : ∀ a b, lt a b = true → key a ≤ key b.
Hypothesis lt_false : ∀ a b, lt a b = false → key b ≤ key a.

Lemma heap_ok_nil : heap_ok key [].
Proof. intros i _ x y Hx. by rewrite lookup_nil in Hx. Qed.

Lemma heap_ok_root_min (heap : list A) (r : A) :
  heap_ok key heap → heap !! 0%nat = Some r →
  ∀ i y, heap !! i = Some y → key r ≤ key y.
Proof.
  intros Hok Hr i. induction (lt_wf i) as [i _ IH]. intros y Hy.
  destruct (decide (i = 0%nat)) as [->|Hi]; [naive_solver lia|].
  destruct (parent_pos_facts i) as [Hlt _]; [lia|].
  destruct (lookup_lt_is_Some_2 heap ((i - 1) / 2)) as [z Hz].
  { apply lookup_lt_Some in Hy. lia. }
  etrans; [by eapply IH|]. eapply Hok; [|done..]. lia.
Qed.

Lemma hole_fill_ok (heap : list A) (pos : nat) (newitem : A) :
  (∀ i, (0 < i)%nat → i ≠ pos → ((i - 1) / 2)%nat ≠ pos →
        ord key heap ((i - 1) / 2) i) →
  (∀ c y, (0 < c)%nat → ((c - 1) / 2)%nat = pos → heap !! c = Some y →
          key newitem ≤ key y) →
  (pos = 0%nat ∨
   ∃ parent, heap !! ((pos - 1) / 2)%nat = Some parent ∧ key parent ≤ key newitem) →
  heap_ok key (<[pos := newitem]> heap).
Proof.
  intros H1 H2 H3 i Hi x y Hy Hx.
  destruct (parent_pos_facts i) as [Hlt _]; [done|].
  destruct (decide (i = pos)) as [->|Hne].
  - rewrite list_lookup_insert_ne in Hy by lia.
    destruct H3 as [->|(parent & Hp & Hle)]; [lia|].
    apply list_lookup_insert_Some in Hx as [(_ & <- & _)|[? _]]; [|done].
    congruence.
  - rewrite list_lookup_insert_ne in Hx by done.
    destruct (decide (((i - 1) / 2)%nat = pos)) as [Hpar|Hpar].
    + rewrite Hpar in Hy.
      apply list_lookup_insert_Some in Hy as [(_ & <- & _)|[? _]]; [|done].
      by eapply H2.
    + rewrite list_lookup_insert_ne in Hy by done.
      by eapply H1.
Qed.

Lemma siftdown_loop_ok (fuel : nat) :
  ∀ (heap : list A) (pos : nat) (newitem : A),
    (pos ≤ fuel)%nat → (pos < length heap)%nat →
    (∀ i, (0 < i)%nat → i ≠ pos → ord key heap ((i - 1) / 2) i) →
    (∀ c y, (0 < c)%nat → ((c - 1) / 2)%nat = pos → heap !! c = Some y →
            key newitem ≤ key y) →
    (∀ c, (0 < pos)%nat → (0 < c)%nat → ((c - 1) / 2)%nat = pos →
          ord key heap ((pos - 1) / 2) c) →
    heap_ok key (siftdown_loop lt fuel heap 0 pos newitem).
Proof.
  induction fuel as [|fuel IH]; intros heap pos newitem Hfuel Hpos H1 H2 H3;
    cbn [siftdown_loop].
  - apply hole_fill_ok; [auto|auto|left; lia].
  - case_bool_decide as Hs; [|apply hole_fill_ok; [auto|auto|left; lia]].
    destruct (parent_pos_facts pos) as [Hlt _]; [done|].
    destruct (lookup_lt_is_Some_2 heap ((pos - 1) / 2)) as [parent Hp]; [lia|].
    rewrite Hp. destruct (lt newitem parent) eqn:Hcmp.
    2:{ apply hole_fill_ok; [auto|auto|right]. eauto. }
    apply lt_true in Hcmp.
    apply IH; [lia|rewrite length_insert; lia|..].
    + intros i Hi Hne x y Hy Hx.
      destruct (parent_pos_facts i) as [Hlti _]; [done|].
      destruct (decide (i = pos)) as [->|Hne'].
      * rewrite list_lookup_insert_ne in Hy by lia.
        apply list_lookup_insert_Some in Hx as [(_ & <- & _)|[? _]]; [|done].
        assert (x = parent) as -> by congruence. lia.
      * rewrite list_lookup_insert_ne in Hx by done.
        destruct (decide (((i - 1) / 2)%nat = pos)) as [Hpar|Hpar].
        -- rewrite Hpar in Hy.
           apply list_lookup_insert_Some in Hy as [(_ & <- & _)|[? _]]; [|done].
           by eapply (H3 i).
        -- rewrite list_lookup_insert_ne in Hy by done. by eapply H1.
    + intros c y Hc Hpar Hy.
      destruct (decide (c = pos)) as [->|Hne].
      * apply list_lookup_insert_Some in Hy as [(_ & <- & _)|[? _]]; done.
      * rewrite list_lookup_insert_ne in Hy by done.
        etrans; [exact Hcmp|]. eapply (H1 c); [done|done| |done].
        by rewrite Hpar.
    + intros c Hpp Hc Hpar x y Hx Hy.
      destruct (parent_pos_facts ((pos - 1) / 2)) as [Hlt' _]; [done|].
      rewrite list_lookup_insert_ne in Hx by lia.
      assert (key x ≤ key parent) as Hgp.
      { eapply (H1 ((pos - 1) / 2)%nat); [done|lia|done|done]. }
      destruct (decide (c = pos)) as [->|Hne].
      * apply list_lookup_insert_Some in Hy as [(_ & <- & _)|[? _]]; done.
      * rewrite list_lookup_insert_ne in Hy by done.
        etrans; [exact Hgp|]. eapply (H1 c); [done|done| |done].
        by rewrite Hpar.
Qed.

Lemma heappush_ok (heap : list A) (item : A) :
  heap_ok key heap → heap_ok key (heappush lt heap item).
Proof.
  intros Hok. unfold heappush, siftdown.
  rewrite length_app. simpl.
  replace (length heap + 1 - 1)%nat with (length heap) by lia.
  rewrite lookup_app_r, Nat.sub_diag by lia. simpl.
  apply siftdown_loop_ok; [lia|rewrite length_app; simpl; lia|..].
  - intros i Hi Hne x y Hy Hx.
    destruct (parent_pos_facts i) as [Hlt _]; [done|].
    assert (i < length heap)%nat.
    { apply lookup_lt_Some in Hx. rewrite length_app in Hx. simpl in Hx. lia. }
    rewrite lookup_app_l in Hx, Hy by lia. by eapply Hok.
  - intros c y Hc Hpar Hy.
    destruct (parent_pos_facts c) as [Hlt _]; [done|].
    apply lookup_lt_Some in Hy. rewrite length_app in Hy. simpl in Hy. lia.
  - intros c Hpos Hc Hpar x y Hx Hy.
    destruct (parent_pos_facts c) as [Hlt _]; [done|].
    apply lookup_lt_Some in Hy. rewrite length_app in Hy. simpl in Hy. lia.
Qed.

Lemma smaller_child_spec (heap : list A) (pos : nat) :
  (2 * pos + 1 < length heap)%nat →
  let c := smaller_child lt heap (length heap) (2 * pos + 1) in
  ∃ y, heap !! c = Some y ∧ ((c - 1) / 2)%nat = pos ∧ (pos < c)%nat ∧
       ∀ c' z, (0 < c')%nat → ((c' - 1) / 2)%nat = pos → heap !! c' = Some z →
               key y ≤ key z.
Proof.
  intros Hlen c. subst c. unfold smaller_child.
  destruct (lookup_lt_is_Some_2 heap (2 * pos + 1)) as [l Hl]; [done|].
  rewrite Hl.
  assert (∀ c', (0 < c')%nat → ((c' - 1) / 2)%nat = pos →
                c' = (2 * pos + 1)%nat ∨ c' = (2 * pos + 1 + 1)%nat) as Hch.
  { intros c' Hc' Hpar. destruct (parent_pos_facts c') as [_ ?]; [done|]. lia. }
  destruct (heap !! (2 * pos + 1 + 1)%nat) as [r|] eqn:Hr.
  - destruct (bool_decide _ && negb (lt l r)) eqn:Hcond.
    + apply andb_true_iff in Hcond as [_ Hcmp].
      apply negb_true_iff, lt_false in Hcmp.
      exists r. split_and!; [done|apply parent_pos_of_child; lia|lia|].
      intros c' z Hc' Hpar Hz.
      destruct (Hch c' Hc' Hpar) as [->| ->]; [|by simplify_eq].
      assert (z = l) as -> by congruence. done.
    + apply andb_false_iff in Hcond as [Hcond|Hcond].
      { apply bool_decide_eq_false in Hcond. apply lookup_lt_Some in Hr. lia. }
      apply negb_false_iff, lt_true in Hcond.
      exists l. split_and!; [done|apply parent_pos_of_child; lia|lia|].
      intros c' z Hc' Hpar Hz.
      destruct (Hch c' Hc' Hpar) as [->| ->]; [by simplify_eq|].
      assert (z = r) as -> by congruence. done.
  - exists l. split_and!; [done|apply parent_pos_of_child; lia|lia|].
    intros c' z Hc' Hpar Hz.
    destruct (Hch c' Hc' Hpar) as [->| ->]; [by simplify_eq|congruence].
Qed.

Lemma siftup_loop_ok (fuel : nat) :
  ∀ (heap heap' : list A) (pos leaf : nat),
    (length heap ≤ pos + fuel)%nat → (pos < length heap)%nat →
    (∀ i, (0 < i)%nat → i ≠ pos → ((i - 1) / 2)%nat ≠ pos →
          ord key heap ((i - 1) / 2) i) →
    (∀ c, (0 < pos)%nat → (0 < c)%nat → ((c - 1) / 2)%nat = pos →
          ord key heap ((pos - 1) / 2) c) →
    siftup_loop lt fuel heap (length heap) pos = (heap', leaf) →
    (leaf < length heap')%nat ∧
    (∀ i, (0 < i)%nat → i ≠ leaf → ((i - 1) / 2)%nat ≠ leaf →
          ord key heap' ((i - 1) / 2) i) ∧
    (∀ c, (0 < c)%nat → ((c - 1) / 2)%nat = leaf → heap' !! c = None).
Proof.
  induction fuel as [|fuel IH]; intros heap heap' pos leaf Hfuel Hpos H1 H3;
    cbn [siftup_loop].
  - lia.
  - case_bool_decide as Hc.
    2:{ intros [= <- <-]. split_and!; [done|done|].
        intros c Hc' Hpar. apply lookup_ge_None.
        destruct (parent_pos_facts c) as [_ ?]; [done|]. lia. }
    destruct (smaller_child_spec heap pos Hc) as (y & Hy & Hpar & Hgt & Hmin).
    rewrite Hy. intros Hrec.
    set (c := smaller_child lt heap (length heap) (2 * pos + 1)) in *.
    rewrite <- (length_insert heap pos y) in Hrec.
    apply IH in Hrec; [done|rewrite length_insert; lia| |..].
    + rewrite length_insert. by eapply lookup_lt_Some.
    + intros i Hi Hne Hnp x z Hx Hz.
      destruct (parent_pos_facts i) as [Hlti _]; [done|].
      destruct (decide (i = pos)) as [->|Hne'].
      * rewrite list_lookup_insert_ne in Hx by lia.
        apply list_lookup_insert_Some in Hz as [(_ & <- & _)|[? _]]; [|done].
        eapply (H3 c); [lia|lia|done|done|done].
      * rewrite list_lookup_insert_ne in Hz by done.
        destruct (decide (((i - 1) / 2)%nat = pos)) as [Hpi|Hpi].
        -- rewrite Hpi in Hx.
           apply list_lookup_insert_Some in Hx as [(_ & <- & _)|[? _]]; [|done].
           by eapply Hmin.
        -- rewrite list_lookup_insert_ne in Hx by done. by eapply H1.
    + intros d _ Hd Hpd x z Hx Hz.
      destruct (parent_pos_facts d) as [Hltd _]; [done|].
      rewrite Hpar in Hx.
      apply list_lookup_insert_Some in Hx as [(_ & <- & _)|[? _]]; [|done].
      rewrite list_lookup_insert_ne in Hz by lia.
      eapply (H1 d); [done|lia|lia| |done]. by rewrite Hpd.
Qed.

Lemma siftup_root_ok (heap : list A) :
  (∀ i, (0 < i)%nat → ((i - 1) / 2)%nat ≠ 0%nat → ord key heap ((i - 1) / 2) i) →
  heap_ok key (siftup lt heap 0).
Proof.
  intros H1. unfold siftup.
  destruct (heap !! 0%nat) as [newitem|] eqn:Hn.
  2:{ apply lookup_ge_None in Hn. destruct heap; [apply heap_ok_nil|simpl in Hn; lia]. }
  destruct (siftup_loop lt (length heap) heap (length heap) 0)
    as [heap' leaf] eqn:Hloop.
  apply siftup_loop_ok in Hloop as (Hleaf & Hord & Hnone);
    [|lia|by eapply lookup_lt_Some|intros; apply H1; done|intros; lia].
  unfold siftdown. rewrite list_lookup_insert_eq by done.
  apply siftdown_loop_ok; [lia|by rewrite length_insert|..].
  - intros i Hi Hne x y Hx Hy.
    rewrite list_lookup_insert_ne in Hy by done.
    destruct (decide (((i - 1) / 2)%nat = leaf)) as [Hpar|Hpar].
    + rewrite (Hnone i) in Hy; done.
    + rewrite list_lookup_insert_ne in Hx by done. by eapply Hord.
  - intros c y Hc Hpar Hy.
    destruct (parent_pos_facts c) as [Hlt _]; [done|].
    rewrite list_lookup_insert_ne in Hy by lia.
    rewrite (Hnone c) in Hy; done.
  - intros c _ Hc Hpar x y Hx Hy.
    destruct (parent_pos_facts c) as [Hlt _]; [done|].
    rewrite list_lookup_insert_ne in Hy by lia.
    rewrite (Hnone c) in Hy; done.
Qed.

Lemma heappop_ok (heap heap' : list A) (item : A) :
  heap_ok key heap → heappop lt heap = Some (item, heap') →
  heap_ok key heap' ∧ ∀ y, y ∈ heap → key item ≤ key y.
Proof.
  intros Hok. unfold heappop.
  destruct (last heap) as [lastelt|] eqn:Hl; [|done].
  apply last_Some in Hl as [l ->].
  rewrite length_app. simpl.
  replace (length l + 1 - 1)%nat with (length l) by lia.
  rewrite take_app_length.
  destruct l as [|returnitem l]; intros [= <- <-].
  - split; [apply heap_ok_nil|]. intros y Hy%list_elem_of_singleton. by subst.
  - split.
    + apply siftup_root_ok. intros i Hi Hpar x y Hx Hy.
      destruct (parent_pos_facts i) as [Hlt _]; [done|].
      assert (∀ k, k ≠ 0%nat →
                (<[0%nat := lastelt]> (returnitem :: l)) !! k = (returnitem :: l) !! k)
        as Hrest by (by intros [|k]).
      rewrite Hrest in Hx, Hy by lia.
      eapply (Hok i); [done|..].
      * rewrite lookup_app_l; [done|]. by eapply lookup_lt_Some.
      * rewrite lookup_app_l; [done|]. by eapply lookup_lt_Some.
    + intros y Hy. apply list_elem_of_lookup in Hy as [i Hi].
      by eapply (heap_ok_root_min _ returnitem Hok).
Qed.
End heapq_order.

(** * Facts about the engine *)

Lemma cell_insert (gr : gmap pos Cell.t) (p q : pos) (c : Cell.t) :
  cell (<[p := c]> gr) q = if decide (p = q) then c else cell gr q.
Proof. unfold cell. rewrite lookup_insert. by case_decide. Qed.

Lemma entry_lt_true (m : gmap pos Cell.t) (a b : entry) :
  entry_lt m a b = true → a.1 ≤ b.1.
Proof.
  unfold entry_lt. case_bool_decide as H1; [lia|]. intros H%Z.ltb_lt. lia.
Qed.

Lemma entry_lt_false (m : gmap pos Cell.t) (a b : entry) :
  entry_lt m a b = false → b.1 ≤ a.1.
Proof.
  unfold entry_lt. case_bool_decide as H1; [lia|]. intros H%Z.ltb_ge. lia.
Qed.

Lemma in_open_spec (open : list entry) (n : pos) :
  in_open open n = true ↔ n ∈ open.*2.
Proof.
  unfold in_open. induction open as [|e open IH]; simpl.
  - split; [done|]. by intros ?%elem_of_nil.
  - rewrite orb_true_iff, IH, elem_of_cons, bool_decide_eq_true. naive_solver.
Qed.

Lemma heappush_nodes (m : gmap pos Cell.t) (open : list entry) (e : entry) :
  (heappush (entry_lt m) open e).*2 ≡ₚ e.2 :: open.*2.
Proof. by rewrite heappush_perm. Qed.

Lemma heappop_nodes (m : gmap pos Cell.t) (open open' : list entry) (e : entry) :
  heappop (entry_lt m) open = Some (e, open') → open.*2 ≡ₚ e.2 :: open'.*2.
Proof. intros H%heappop_perm. by rewrite H. Qed.

Section Engine_facts.
Variables cols rows : Z.

Lemma add_neighbors_bounds (p n : pos) :
  in_bounds cols rows p → n ∈ add_neighbors cols rows p → in_bounds cols rows n.
Proof.
  destruct p as [x y]. intros [Hx Hy] Hn. simpl in *.
  rewrite !elem_of_app in Hn.
  destruct Hn as [Hn|[Hn|[Hn|Hn]]]; case_bool_decide;
    try (by apply elem_of_nil in Hn);
    apply list_elem_of_singleton in Hn as ->; unfold in_bounds; simpl; lia.
Qed.

Lemma relax_ok (st en cur : pos) (closed : gset pos) (gr : gmap pos Cell.t)
    (open : list entry) (n : pos) :
  store_ok cols rows st gr open closed → st ∈ closed → cur ∈ closed →
  in_bounds cols rows n →
  store_ok cols rows st (relax en cur closed (gr, open) n).1
    (relax en cur closed (gr, open) n).2 closed.
Proof.
  intros Hok Hst Hcur Hn. unfold relax.
  destruct (bool_decide (n ∉ closed) && negb (Cell.obstacle (cell gr n)))
    eqn:Hguard; [|done].
  apply andb_true_iff in Hguard as [Hnc%bool_decide_eq_true _].
  set (tg := Cell.g (cell gr cur) + cost cur n).
  destruct (negb (in_open open n) || (tg <? Cell.g (cell gr n))) eqn:Hupd; [|done].
  assert (n ≠ st) as Hnst by set_solver.
  assert (n ≠ cur) as Hncur by set_solver.
  set (c := Cell.mk (tg + heuristic n en) tg (heuristic n en) (Some cur)
              (Cell.obstacle (cell gr n))).
  set (gr' := <[n := c]> gr).
  destruct Hok as [Hnd Hdis Hbd Hsp Hpar Hg Hlk Hheap].
  assert (Cell.parent (cell gr' st) = None) as Hsp'.
  { unfold gr'. rewrite cell_insert. by case_decide. }
  assert (∀ a p, Cell.parent (cell gr' a) = Some p →
                 p ∈ closed ∧ Cell.g (cell gr' a) = Cell.g (cell gr' p) + 1) as Hpar'.
  { intros a p. unfold gr'. rewrite !cell_insert.
    destruct (decide (n = a)) as [->|Hna]; simpl.
    - intros [= <-]. split; [done|]. by rewrite decide_False.
    - intros Hp. destruct (Hpar a p Hp) as [Hpc Hgp]. split; [done|].
      rewrite decide_False by set_solver. done. }
  assert (∀ a, 0 ≤ Cell.g (cell gr' a)) as Hg'.
  { intros a. unfold gr'. rewrite cell_insert. case_decide; [|done].
    simpl. unfold tg, cost. specialize (Hg cur). lia. }
  assert (∀ a, a = n ∨ a ∈ open.*2 ∨ a ∈ closed → a ≠ st →
               is_Some (Cell.parent (cell gr' a))) as Hlk'.
  { intros a Ha Hast. unfold gr'. rewrite cell_insert.
    case_decide; [by eexists|]. apply Hlk; [|done]. naive_solver. }
  destruct (in_open open n) eqn:Hio; simpl.
  - constructor; try done. intros a Ha. apply Hlk'. naive_solver.
  - assert (n ∉ open.*2) as Hno.
    { intros Hin%in_open_spec. congruence. }
    pose proof (heappush_nodes gr' open (Cell.f c, n)) as HP. simpl in HP.
    constructor; try done.
    + rewrite HP. by constructor.
    + intros a. rewrite HP, elem_of_cons. intros [->|Ha]; [done|by apply Hdis].
    + intros a. rewrite HP, elem_of_cons. intros [[->|Ha]|Ha]; [done|..]; apply Hbd; auto.
    + intros a. rewrite HP, elem_of_cons. intros Ha. apply Hlk'. naive_solver.
    + apply (heappush_ok fst (entry_lt gr')); [apply entry_lt_true|apply entry_lt_false|done].
Qed.

Lemma relax_loop_ok (st en cur : pos) (closed : gset pos) (ns : list pos) :
  ∀ (gr : gmap pos Cell.t) (open : list entry),
    store_ok cols rows st gr open closed → st ∈ closed → cur ∈ closed →
    (∀ n, n ∈ ns → in_bounds cols rows n) →
    store_ok cols rows st (foldl (relax en cur closed) (gr, open) ns).1
      (foldl (relax en cur closed) (gr, open) ns).2 closed.
Proof.
  induction ns as [|n ns IH]; intros gr open Hok Hst Hcur Hns; [done|].
  cbn [foldl]. destruct (relax en cur closed (gr, open) n) as [gr1 open1] eqn:Hr.
  apply IH; [|done|done|].
  - pose proof (relax_ok st en cur closed gr open n Hok Hst Hcur) as H.
    rewrite Hr in H. apply H. apply Hns. by left.
  - intros m Hm. apply Hns. by right.
Qed.

(** The four ways a call of [step] can go. *)
Lemma step_cases (s : AStarPathfinder) :
  (found s = true ∧ step cols rows s = inr (s, true)) ∨
  (found s = false ∧ open_set s = [] ∧
   step cols rows s =
     inr (mkAStarPathfinder (grid s) (start s) (end_ s) (open_set s)
            (closed_set s) (current s) (path s) true, true)) ∨
  (found s = false ∧
   ∃ fr cur open, heappop (entry_lt (grid s)) (open_set s) = Some ((fr, cur), open) ∧
     ((cur = end_ s ∧
       step cols rows s =
         inr (mkAStarPathfinder (grid s) (start s) (end_ s) open
                (closed_set s) (Some cur) (path s) true, true)) ∨
      (cur ≠ end_ s ∧
       step cols rows s =
         let r := foldl (relax (end_ s) cur ({[cur]} ∪ closed_set s))
                    (grid s, open) (add_neighbors cols rows cur) in
         inr (mkAStarPathfinder r.1 (start s) (end_ s) r.2
                ({[cur]} ∪ closed_set s) (Some cur) (path s) false, false)))).
Proof.
  unfold step. destruct (found s) eqn:Hf.
  - left. rewrite !andb_false_r. done.
  - right. rewrite !andb_true_r.
    case_bool_decide as Hlen.
    + right. split; [done|].
      destruct (heappop_is_Some (entry_lt (grid s)) (open_set s) Hlen)
        as [[[fr cur] open] Hpop].
      rewrite Hpop. exists fr, cur, open. split; [done|].
      case_bool_decide as Hend; [by left|right]. split; [done|].
      by destruct (foldl _ _ _).
    + left. assert (open_set s = []) as Hnil.
      { destruct (open_set s); [done|simpl in Hlen; lia]. }
      rewrite Hnil. simpl. done.
Qed.

Lemma step_no_exception (s : AStarPathfinder) :
  ∃ b, step cols rows s = inr (exec_step cols rows s, b).
Proof.
  unfold exec_step.
  destruct (step_cases s) as [[_ ->]|[(_ & _ & ->)|(_ & fr & cur & open & _ & [[_ ->]|[_ ->]])]];
    eauto.
Qed.

Lemma engine_ok_step (s : AStarPathfinder) :
  in_bounds cols rows (start s) →
  engine_ok cols rows s → engine_ok cols rows (exec_step cols rows s).
Proof.
  intros Hsb [Hst Hstart Hcur Hgoal]. unfold exec_step.
  destruct (step_cases s)
    as [[_ ->]|[(Hf & Hnil & ->)|(Hf & fr & cur & open & Hpop & [[Hend ->]|[Hend ->]])]].
  - done.
  - constructor; simpl; done.
  - pose proof (heappop_nodes _ _ _ _ Hpop) as HP. simpl in HP.
    destruct Hst as [Hnd Hdis Hbd Hsp Hpar Hg Hlk Hheap].
    rewrite HP in Hnd. apply NoDup_cons in Hnd as [Hcn Hnd].
    constructor; simpl.
    + constructor; try done.
      * intros a Ha. apply Hdis. rewrite HP. by right.
      * intros a [Ha|Ha]; apply Hbd; [left; rewrite HP; by right|by right].
      * intros a [Ha|Ha]; apply Hlk; [left; rewrite HP; by right|by right].
      * eapply (heappop_ok fst (entry_lt (grid s)));
          [apply entry_lt_true|apply entry_lt_false|done|done].
    + destruct Hstart as [?|Hall]; [by left|right].
      intros a Ha. apply Hall. rewrite HP. by right.
    + intros a [= <-]. destruct (decide (cur = start s)); [by left|right].
      apply Hlk; [|done]. left. rewrite HP. by left.
    + done.
  - pose proof (heappop_nodes _ _ _ _ Hpop) as HP. simpl in HP.
    destruct Hst as [Hnd Hdis Hbd Hsp Hpar Hg Hlk Hheap].
    assert (cur ∈ (open_set s).*2) as Hcin by (rewrite HP; by left).
    rewrite HP in Hnd. apply NoDup_cons in Hnd as [Hcn Hnd].
    assert (start s ∈ ({[cur]} ∪ closed_set s : gset pos)) as Hsc.
    { destruct Hstart as [?|Hall]; [set_solver|]. rewrite (Hall cur Hcin). set_solver. }
    assert (store_ok cols rows (start s) (grid s) open ({[cur]} ∪ closed_set s)) as Hmid.
    { constructor; try done.
      - intros a Ha. rewrite elem_of_union, elem_of_singleton.
        intros [->|Hc]; [done|]. eapply Hdis; [|done]. rewrite HP. by right.
      - intros a. rewrite elem_of_union, elem_of_singleton.
        intros [Ha|[->|Ha]]; apply Hbd; [left; rewrite HP; by right|by left|by right].
      - intros a p Hp. destruct (Hpar a p Hp). split; [set_solver|done].
      - intros a. rewrite elem_of_union, elem_of_singleton.
        intros [Ha|[->|Ha]]; apply Hlk; [left; rewrite HP; by right|by left|by right].
      - eapply (heappop_ok fst (entry_lt (grid s)));
          [apply entry_lt_true|apply entry_lt_false|done|done]. }
    assert (in_bounds cols rows cur) as Hcb by (apply Hbd; by left).
    pose proof (relax_loop_ok (start s) (end_ s) cur ({[cur]} ∪ closed_set s)
                  (add_neighbors cols rows cur) (grid s) open Hmid Hsc
                  ltac:(set_solver)
                  (λ n Hn, add_neighbors_bounds cur n Hcb Hn)) as Hfin.
    cbn zeta. constructor; simpl.
    + done.
    + by left.
    + intros a [= <-]. destruct (decide (cur = start s)); [by left|right].
      eapply ok_linked; [exact Hfin| |done]. right. set_solver.
    + intros [= ?]. done.
Qed.

Lemma engine_ok_run (n : nat) :
  ∀ s, in_bounds cols rows (start s) → engine_ok cols rows s →
       engine_ok cols rows (run cols rows n s).
Proof.
  induction n as [|n IH]; intros s Hb Hok; [done|].
  simpl. apply IH; [|by apply engine_ok_step].
  unfold exec_step.
  destruct (step_cases s)
    as [[_ ->]|[(_ & _ & ->)|(_ & fr & cur & open & _ & [[_ ->]|[_ ->]])]]; done.
Qed.
End Engine_facts.

Section Run_facts.
Variables cols rows : Z.

Lemma cell_set_obstacle (b : bool) (p q : pos) (gr : gmap pos Cell.t) :
  cell (set_obstacle b p gr) q =
  if decide (p = q) then Cell.set_obstacle b (cell gr q) else cell gr q.
Proof.
  unfold set_obstacle. rewrite cell_insert. case_decide; by subst.
Qed.

Lemma fresh_set_obstacle (b : bool) (p : pos) (gr : gmap pos Cell.t) :
  fresh gr → fresh (set_obstacle b p gr).
Proof.
  intros Hf q. rewrite cell_set_obstacle. case_decide; [|done].
  destruct (Hf q) as (? & ? & ?). done.
Qed.

Lemma fresh_empty : fresh ∅.
Proof. intros p. unfold cell. by rewrite lookup_empty. Qed.

Lemma fresh_load_obstacles (obstacles : list (Z * Z)) :
  ∀ gr, fresh gr → fresh (foldl (load_obstacle cols rows) gr obstacles).
Proof.
  induction obstacles as [|o os IH]; intros gr Hf; [done|].
  simpl. apply IH. unfold load_obstacle.
  destruct (_ && _); [by apply fresh_set_obstacle|done].
Qed.

Lemma py_index_bounds (len i k : Z) :
  py_index len i = inr k → 0 ≤ k < len.
Proof.
  unfold py_index. repeat case_bool_decide; intros [= <-]; lia.
Qed.

Lemma grid_index_bounds (p : Z * Z) (q : pos) :
  grid_index cols rows p = inr q → in_bounds cols rows q.
Proof.
  unfold grid_index.
  destruct (py_index cols p.1) as [|x] eqn:Hx; [done|].
  destruct (py_index rows p.2) as [|y] eqn:Hy; [done|].
  intros [= <-]. split; simpl; by eapply py_index_bounds.
Qed.

Lemma setup_spec (obstacles : list (Z * Z)) (points : option ((Z * Z) * (Z * Z)))
    (gr : gmap pos Cell.t) (st en : pos) :
  setup cols rows obstacles points = inr (gr, st, en) →
  fresh gr ∧ in_bounds cols rows st ∧ in_bounds cols rows en ∧
  Cell.obstacle (cell gr st) = false ∧ Cell.obstacle (cell gr en) = false.
Proof.
  unfold setup.
  destruct (match points with Some p => p | None => _ end) as [sp ep].
  destruct (grid_index cols rows sp) as [|st'] eqn:Hs; [done|].
  destruct (grid_index cols rows ep) as [|en'] eqn:He; [done|].
  intros [= <- <- <-]. split_and!.
  - do 2 apply fresh_set_obstacle. apply fresh_load_obstacles, fresh_empty.
  - by eapply grid_index_bounds.
  - by eapply grid_index_bounds.
  - rewrite !cell_set_obstacle. repeat case_decide; done.
  - rewrite !cell_set_obstacle. repeat case_decide; done.
Qed.

Lemma init_spec (gr : gmap pos Cell.t) (st en : pos) (s : AStarPathfinder) :
  AStarPathfinder_init gr st en = inr s →
  s = mkAStarPathfinder gr st en [(Cell.f (cell gr st), st)] ∅ None [] false.
Proof. by intros [= <-]. Qed.

Lemma engine_ok_init (gr : gmap pos Cell.t) (st en : pos) :
  fresh gr → in_bounds cols rows st →
  engine_ok cols rows
    (mkAStarPathfinder gr st en [(Cell.f (cell gr st), st)] ∅ None [] false).
Proof.
  intros Hf Hb. constructor; simpl; [|right|done|done].
  - constructor.
    + apply NoDup_singleton.
    + intros c _. apply not_elem_of_empty.
    + intros c [Hc%list_elem_of_singleton|Hc%elem_of_empty]; [by subst|done].
    + apply Hf.
    + intros c p Hp. destruct (Hf c) as (_ & _ & Hn). congruence.
    + intros c. destruct (Hf c) as (_ & -> & _). done.
    + intros c [Hc%list_elem_of_singleton|Hc%elem_of_empty]; done.
    + intros i Hi x y Hx Hy. apply lookup_lt_Some in Hy. simpl in Hy. lia.
  - intros c Hc%list_elem_of_singleton. done.
Qed.

Lemma launch_spec (obstacles : list (Z * Z)) (points : option ((Z * Z) * (Z * Z)))
    (s : AStarPathfinder) :
  launch cols rows obstacles points = inr s →
  engine_ok cols rows s ∧ in_bounds cols rows (start s) ∧
  in_bounds cols rows (end_ s) ∧ fresh (grid s) ∧
  open_set s = [(0, start s)] ∧ closed_set s = ∅ ∧ current s = None ∧
  found s = false.
Proof.
  unfold launch.
  destruct (setup cols rows obstacles points) as [|[[gr st] en]] eqn:Hs; [done|].
  apply setup_spec in Hs as (Hf & Hst & Hen & _).
  intros ->%init_spec. simpl. split_and!; try done.
  - by apply engine_ok_init.
  - destruct (Hf st) as (-> & _). done.
Qed.

Lemma exec_step_start (s : AStarPathfinder) :
  start (exec_step cols rows s) = start s ∧ end_ (exec_step cols rows s) = end_ s.
Proof.
  unfold exec_step.
  destruct (step_cases cols rows s)
    as [[_ ->]|[(_ & _ & ->)|(_ & fr & cur & open & _ & [[_ ->]|[_ ->]])]]; done.
Qed.

Lemma run_start (n : nat) :
  ∀ s, start (run cols rows n s) = start s ∧ end_ (run cols rows n s) = end_ s.
Proof.
  induction n as [|n IH]; intros s; [done|]. simpl.
  destruct (IH (exec_step cols rows s)) as [-> ->]. apply exec_step_start.
Qed.

Lemma launch_run_ok (obstacles : list (Z * Z)) (points : option ((Z * Z) * (Z * Z)))
    (s0 : AStarPathfinder) (n : nat) :
  launch cols rows obstacles points = inr s0 →
  engine_ok cols rows (run cols rows n s0) ∧
  in_bounds cols rows (start (run cols rows n s0)).
Proof.
  intros (Hok & Hb & _)%launch_spec. split.
  - by apply engine_ok_run.
  - by destruct (run_start n s0) as [-> _].
Qed.

(** What [expands] and [exec_step] say about each other. *)
Lemma expands_Some (s : AStarPathfinder) (c : pos) :
  expands s = Some c →
  found s = false ∧ c ≠ end_ s ∧
  ∃ fr open, heappop (entry_lt (grid s)) (open_set s) = Some ((fr, c), open) ∧
    exec_step cols rows s =
      let r := foldl (relax (end_ s) c ({[c]} ∪ closed_set s))
                 (grid s, open) (add_neighbors cols rows c) in
      mkAStarPathfinder r.1 (start s) (end_ s) r.2
        ({[c]} ∪ closed_set s) (Some c) (path s) false.
Proof.
  unfold expands, exec_step.
  destruct (step_cases cols rows s)
    as [[Hf ->]|[(Hf & Hnil & ->)|(Hf & fr & cur & open & Hpop & [[Hend ->]|[Hend ->]])]].
  - rewrite Hf, andb_false_r. done.
  - rewrite Hnil. done.
  - rewrite Hpop. destruct (_ && _); [|done]. by rewrite bool_decide_eq_true_2.
  - rewrite Hpop, Hf. destruct (bool_decide _ && _); [|done].
    rewrite bool_decide_eq_false_2 by done. intros [= <-].
    split_and!; [done..|]. eauto.
Qed.

Lemma expands_None (s : AStarPathfinder) :
  expands s = None →
  found (exec_step cols rows s) = true ∧
  closed_set (exec_step cols rows s) = closed_set s.
Proof.
  unfold expands, exec_step.
  destruct (step_cases cols rows s)
    as [[Hf ->]|[(Hf & Hnil & ->)|(Hf & fr & cur & open & Hpop & [[Hend ->]|[Hend ->]])]];
    try done.
  rewrite Hpop, Hf, andb_true_r.
  rewrite bool_decide_eq_true_2, bool_decide_eq_false_2; [done|done|].
  apply heappop_perm, Permutation_length in Hpop. simpl in Hpop. lia.
Qed.

Lemma found_stable (s : AStarPathfinder) :
  found s = true → exec_step cols rows s = s.
Proof.
  intros Hf. unfold exec_step.
  destruct (step_cases cols rows s)
    as [[_ ->]|[(Hf' & _)|(Hf' & _)]]; [done|congruence..].
Qed.

Lemma found_run (n : nat) :
  ∀ s, found s = true → run cols rows n s = s.
Proof.
  induction n as [|n IH]; intros s Hf; [done|].
  simpl. rewrite found_stable by done. by apply IH.
Qed.

Lemma expansions_ok (n : nat) :
  ∀ s, in_bounds cols rows (start s) → engine_ok cols rows s →
       NoDup (expansions cols rows n s) ∧
       ∀ c, c ∈ expansions cols rows n s →
            (c ∉ closed_set s) ∧ in_bounds cols rows c.
Proof.
  induction n as [|n IH]; intros s Hb Hok.
  { split; [constructor|]. by intros c ?%elem_of_nil. }
  cbn [expansions].
  destruct (IH (exec_step cols rows s)) as [Hnd Hcl].
  { by destruct (exec_step_start s) as [-> _]. }
  { by apply engine_ok_step. }
  destruct (expands s) as [c|] eqn:He; simpl.
  - destruct (expands_Some s c He) as (Hf & Hne & fr & open & Hpop & Hstep).
    assert (closed_set (exec_step cols rows s) = {[c]} ∪ closed_set s) as Hcs
      by (by rewrite Hstep).
    rewrite Hcs in Hcl.
    assert (c ∈ (open_set s).*2) as Hin.
    { rewrite (heappop_nodes _ _ _ _ Hpop). by left. }
    split.
    + constructor; [|done]. intros Hc. apply Hcl in Hc as [Hc _]. set_solver.
    + intros a [->|Ha]%elem_of_cons.
      * split; [by eapply ok_disjoint, Hin; apply Hok|].
        eapply ok_bounds; [apply Hok|by left].
      * apply Hcl in Ha as [Ha ?]. split; [set_solver|done].
  - destruct (expands_None s He) as [_ Hc]. rewrite Hc in Hcl. done.
Qed.

Lemma running_expansions (n : nat) :
  ∀ s, found (run cols rows n s) = false →
       length (expansions cols rows n s) = n.
Proof.
  induction n as [|n IH]; intros s Hf; [done|].
  cbn [expansions run] in *.
  destruct (expands s) as [c|] eqn:He.
  - simpl. f_equal. by apply IH.
  - destruct (expands_None s He) as [Hfs _].
    rewrite found_run in Hf by done. congruence.
Qed.


Lemma elem_of_all_cells (p : pos) :
  in_bounds cols rows p → p ∈ all_cells cols rows.
Proof.
  destruct p as [x y]. intros [Hx Hy]. simpl in *.
  unfold all_cells. apply list_elem_of_In, in_prod_iff.
  split; apply list_elem_of_In, elem_of_seqZ; lia.
Qed.

Lemma length_all_cells :
  length (all_cells cols rows) = (Z.to_nat cols * Z.to_nat rows)%nat.
Proof.
  unfold all_cells.
  etrans; [apply (length_prod (seqZ 0 cols) (seqZ 0 rows))|].
  by rewrite !length_seqZ.
Qed.

Lemma bounded_nodup_length (l : list pos) :
  0 < cols → 0 < rows →
  NoDup l → (∀ c, c ∈ l → in_bounds cols rows c) →
  Z.of_nat (length l) ≤ cols * rows.
Proof.
  intros Hc Hr Hnd Hb.
  assert (length l ≤ length (all_cells cols rows))%nat as Hle.
  { apply submseteq_length, NoDup_submseteq; [done|].
    intros c Hc'. by apply elem_of_all_cells, Hb. }
  rewrite length_all_cells in Hle.
  apply Nat2Z.inj_le in Hle.
  rewrite Nat2Z.inj_mul, !Z2Nat.id in Hle by lia. done.
Qed.
End Run_facts.

Section Walks_and_entries.
Variables cols rows : Z.

Lemma parent_walk_linked (st : pos) (gr : gmap pos Cell.t) (open : list entry)
    (closed : gset pos) :
  store_ok cols rows st gr open closed →
  ∀ (k : nat) (c : pos),
    c = st ∨ is_Some (Cell.parent (cell gr c)) →
    Cell.g (cell gr c) < Z.of_nat k →
    ∃ l, (∀ fuel, (k ≤ fuel)%nat → parent_walk fuel gr (Some c) = Some l) ∧
         head l = Some c ∧ last l = Some st ∧ chain gr l.
Proof.
  intros Hok. induction k as [|k IH]; intros c Hc Hg.
  { pose proof (ok_g _ _ _ _ _ _ Hok c). lia. }
  destruct (Cell.parent (cell gr c)) as [p|] eqn:Hp.
  - destruct (ok_parent _ _ _ _ _ _ Hok c p Hp) as [Hpc Hgp].
    destruct (IH p) as (l & Hwalk & Hhead & Hlast & Hchain).
    { destruct (decide (p = st)); [by left|right].
      eapply ok_linked; [exact Hok|by right|done]. }
    { lia. }
    exists (c :: l). split_and!.
    + intros [|fuel] Hfuel; [lia|]. cbn [parent_walk].
      rewrite Hp, Hwalk by lia. done.
    + done.
    + rewrite last_cons, Hlast. done.
    + intros [|i] a b Ha Hb; simpl in *.
      * destruct l; simplify_eq/=. done.
      * by eapply Hchain.
  - assert (c = st) as -> by (destruct Hc as [?|[? ?]]; congruence).
    exists [st]. split_and!; [|done|done|].
    + intros [|fuel] Hfuel; [lia|]. cbn [parent_walk]. rewrite Hp.
      by destruct fuel.
    + intros [|i] a b Ha Hb; simplify_eq/=.
Qed.

Lemma relax_keeps (en cur : pos) (closed : gset pos) (gr : gmap pos Cell.t)
    (open : list entry) (n : pos) (e : entry) :
  e ∈ open → e ∈ (relax en cur closed (gr, open) n).2.
Proof.
  intros He. unfold relax.
  repeat (match goal with |- context [if ?b then _ else _] => destruct b eqn:? end);
    simpl; try done.
  rewrite heappush_perm. by right.
Qed.

Lemma relax_new (en cur : pos) (closed : gset pos) (gr : gmap pos Cell.t)
    (open : list entry) (n : pos) (e : entry) :
  e ∈ (relax en cur closed (gr, open) n).2 →
  e ∈ open ∨ ((e.2 ∉ open.*2) ∧ (e.2 ∉ closed)).
Proof.
  unfold relax.
  destruct (bool_decide (n ∉ closed) && _) eqn:Hguard; [|by left].
  apply andb_true_iff in Hguard as [Hnc%bool_decide_eq_true _].
  destruct (_ || _); [|by left].
  destruct (in_open open n) eqn:Hio; simpl; [by left|].
  rewrite heappush_perm. intros [->|He]%elem_of_cons; [right|by left].
  simpl. split; [|done]. intros Hin%in_open_spec. congruence.
Qed.

Lemma relax_loop_keeps (en cur : pos) (closed : gset pos) (ns : list pos) (e : entry) :
  ∀ gr open, e ∈ open → e ∈ (foldl (relax en cur closed) (gr, open) ns).2.
Proof.
  induction ns as [|n ns IH]; intros gr open He; [done|].
  cbn [foldl]. pose proof (relax_keeps en cur closed gr open n e He) as H.
  destruct (relax en cur closed (gr, open) n). by apply IH.
Qed.

Lemma relax_loop_new (en cur : pos) (closed : gset pos) (ns : list pos) (e : entry) :
  ∀ gr open, e ∈ (foldl (relax en cur closed) (gr, open) ns).2 →
             e ∈ open ∨ ((e.2 ∉ open.*2) ∧ (e.2 ∉ closed)).
Proof.
  induction ns as [|n ns IH]; intros gr open; [by left|].
  cbn [foldl].
  pose proof (relax_new en cur closed gr open n e) as Hnew.
  pose proof (λ e', relax_keeps en cur closed gr open n e') as Hkeep.
  destruct (relax en cur closed (gr, open) n) as [gr1 open1]. simpl in *.
  intros [He|[He Hc]]%IH; [by apply Hnew|right].
  split; [|done]. intros (e' & Heq & Hin)%list_elem_of_fmap.
  apply He, list_elem_of_fmap. eauto.
Qed.
End Walks_and_entries.

(** ** The neighbor loop *)

Section Scan_facts.
Variables cols rows : Z.

Lemma NoDup_add_neighbors (p : pos) : NoDup (add_neighbors cols rows p).
Proof.
  destruct p as [x y]. unfold add_neighbors.
  repeat case_bool_decide; simpl;
    repeat (apply NoDup_cons; split;
            [rewrite ?elem_of_cons, ?elem_of_nil; intros Hin;
             repeat (destruct Hin as [Hin|Hin]); simplify_eq; lia|]);
    apply NoDup_nil_2.
Qed.

Lemma relax_frozen (en cur : pos) (closed : gset pos) (gr : gmap pos Cell.t)
    (open : list entry) (n p : pos) :
  p ≠ n ∨ p ∈ closed →
  cell (relax en cur closed (gr, open) n).1 p = cell gr p.
Proof.
  intros Hp. unfold relax.
  destruct (bool_decide (n ∉ closed) && _) eqn:Hguard; [|done].
  apply andb_true_iff in Hguard as [Hnc%bool_decide_eq_true _].
  assert (n ≠ p) by (destruct Hp; [done|set_solver]).
  destruct (_ || _); [|done].
  destruct (negb _); simpl; rewrite cell_insert; by case_decide.
Qed.

Lemma relax_obstacle (en cur : pos) (closed : gset pos) (gr : gmap pos Cell.t)
    (open : list entry) (n p : pos) :
  Cell.obstacle (cell (relax en cur closed (gr, open) n).1 p) =
  Cell.obstacle (cell gr p).
Proof.
  unfold relax.
  destruct (bool_decide (n ∉ closed) && _); [|done].
  destruct (_ || _); [|done].
  destruct (negb _); simpl; rewrite cell_insert; case_decide; by subst.
Qed.

Lemma add_neighbors_irrefl (p : pos) : p ∉ add_neighbors cols rows p.
Proof.
  destruct p as [x y]. unfold add_neighbors.
  repeat case_bool_decide; simpl;
    rewrite ?elem_of_cons, ?elem_of_nil; intros Hin;
    repeat (destruct Hin as [Hin|Hin]); simplify_eq; lia.
Qed.

(** What one round of the neighbor loop adds to the open set. *)
Lemma relax_pushes (en cur : pos) (closed : gset pos) (gr : gmap pos Cell.t)
    (open : list entry) (n : pos) (e : entry) :
  e ∈ (relax en cur closed (gr, open) n).2 →
  e ∈ open ∨
  (e = (Cell.g (cell gr cur) + cost cur n + heuristic n en, n) ∧
   (n ∉ closed) ∧ Cell.obstacle (cell gr n) = false ∧ (n ∉ open.*2)).
Proof.
  unfold relax.
  destruct (bool_decide (n ∉ closed) && _) eqn:Hguard; [|by left].
  apply andb_true_iff in Hguard as [Hnc%bool_decide_eq_true Hob%negb_true_iff].
  destruct (_ || _); [|by left].
  destruct (in_open open n) eqn:Hio; simpl; [by left|].
  rewrite heappush_perm. intros [->|He]%elem_of_cons; [right|by left].
  split_and!; try done. intros Hin%in_open_spec. congruence.
Qed.

Lemma relax_push_done (en cur : pos) (closed : gset pos) (gr : gmap pos Cell.t)
    (open : list entry) (n : pos) :
  n ∉ closed → Cell.obstacle (cell gr n) = false → n ∉ open.*2 →
  let tentative_g := Cell.g (cell gr cur) + cost cur n in
  let r := relax en cur closed (gr, open) n in
  (tentative_g + heuristic n en, n) ∈ r.2 ∧
  cell r.1 n =
    Cell.mk (tentative_g + heuristic n en) tentative_g (heuristic n en)
      (Some cur) false.
Proof.
  intros Hnc Hob Hno. cbv zeta. unfold relax.
  rewrite bool_decide_eq_true_2, Hob by done.
  assert (in_open open n = false) as ->.
  { destruct (in_open open n) eqn:Hio; [|done].
    by apply in_open_spec in Hio. }
  simpl. split.
  - rewrite heappush_perm. by left.
  - rewrite cell_insert. by case_decide.
Qed.

Lemma relax_loop_untouched (en cur : pos) (closed : gset pos) (ns : list pos)
    (p : pos) :
  ∀ (gr : gmap pos Cell.t) (open : list entry), p ∉ ns →
    cell (foldl (relax en cur closed) (gr, open) ns).1 p = cell gr p.
Proof.
  induction ns as [|n ns IH]; intros gr open Hp; [done|].
  cbn [foldl]. apply not_elem_of_cons in Hp as [Hpn Hp].
  pose proof (relax_frozen en cur closed gr open n p (or_introl Hpn)) as Hn.
  destruct (relax en cur closed (gr, open) n) as [gr1 open1].
  rewrite IH by done. done.
Qed.

(** A free neighbor that is neither closed nor in the open set is given
    its record and one entry, with the estimate of the record. *)
Lemma relax_loop_pushes_if (en cur : pos) (closed : gset pos) (ns : list pos) :
  NoDup ns → cur ∈ closed →
  ∀ (gr : gmap pos Cell.t) (open : list entry) (n : pos),
    n ∈ ns → n ∉ closed → Cell.obstacle (cell gr n) = false → n ∉ open.*2 →
    let tentative_g := Cell.g (cell gr cur) + cost cur n in
    let r := foldl (relax en cur closed) (gr, open) ns in
    (tentative_g + heuristic n en, n) ∈ r.2 ∧
    cell r.1 n =
      Cell.mk (tentative_g + heuristic n en) tentative_g (heuristic n en)
        (Some cur) false.
Proof.
  intros Hnd Hcur. induction Hnd as [|m ns Hm Hnd IH];
    intros gr open n Hn Hnc Hob Hno; [by apply elem_of_nil in Hn|].
  cbv zeta. cbn [foldl].
  apply elem_of_cons in Hn as [->|Hn].
  - destruct (relax_push_done en cur closed gr open m Hnc Hob Hno) as [Hin Hcell].
    destruct (relax en cur closed (gr, open) m) as [gr1 open1] eqn:Hr.
    cbn [fst snd] in Hin, Hcell. split.
    + by apply relax_loop_keeps.
    + by rewrite relax_loop_untouched.
  - assert (n ≠ m) as Hnm by (intros ->; done).
    pose proof (relax_frozen en cur closed gr open m cur (or_intror Hcur)) as Hfc.
    pose proof (relax_obstacle en cur closed gr open m n) as Hfo.
    pose proof (λ e, relax_pushes en cur closed gr open m e) as Hp.
    destruct (relax en cur closed (gr, open) m) as [gr1 open1] eqn:Hr.
    cbn [fst snd] in Hfc, Hfo, Hp. rewrite <- Hfc. apply IH; try done.
    + by rewrite Hfo.
    + intros (e & Heq & He)%list_elem_of_fmap.
      destruct (Hp e He) as [Hin|[-> _]]; [|simpl in Heq; congruence].
      apply Hno, list_elem_of_fmap. eauto.
Qed.

(** Nothing else is added to the open set. *)
Lemma relax_loop_pushes_only (en cur : pos) (closed : gset pos) (ns : list pos)
    (e : entry) :
  cur ∈ closed →
  ∀ (gr : gmap pos Cell.t) (open : list entry),
    e ∈ (foldl (relax en cur closed) (gr, open) ns).2 →
    e ∈ open ∨
    (e.2 ∈ ns ∧ e.1 = Cell.g (cell gr cur) + cost cur e.2 + heuristic e.2 en ∧
     (e.2 ∉ closed) ∧ Cell.obstacle (cell gr e.2) = false ∧ (e.2 ∉ open.*2)).
Proof.
  intros Hcur. induction ns as [|m ns IH]; intros gr open; [by left|].
  cbn [foldl].
  pose proof (relax_frozen en cur closed gr open m cur (or_intror Hcur)) as Hfc.
  pose proof (relax_obstacle en cur closed gr open m e.2) as Hfo.
  pose proof (relax_pushes en cur closed gr open m e) as Hp.
  pose proof (λ e', relax_keeps en cur closed gr open m e') as Hk.
  destruct (relax en cur closed (gr, open) m) as [gr1 open1] eqn:Hr.
  cbn [fst snd] in Hfc, Hfo, Hp, Hk.
  intros [Hin|(Hns & Hest & Hnc & Hob & Hno)]%IH.
  - destruct (Hp Hin) as [?|(-> & Hnc & Hob & Hno)]; [by left|right].
    simpl. split_and!; try done. by left.
  - right. rewrite Hfc in Hest. rewrite Hfo in Hob.
    split_and!; try done; [by right|].
    intros (e' & Heq & He')%list_elem_of_fmap.
    apply Hno, list_elem_of_fmap. eauto.
Qed.

Lemma py_index_cases (len i : Z) :
  match py_index len i with
  | inr k => - len ≤ i < len ∧ k = (if bool_decide (i < 0) then len + i else i)
  | inl e => e = IndexError ∧ ¬ (- len ≤ i < len)
  end.
Proof.
  unfold py_index. repeat case_bool_decide; try lia; split; lia || done.
Qed.

Lemma grid_index_cases (p : Z * Z) :
  match grid_index cols rows p with
  | inr q =>
      (- cols ≤ p.1 < cols ∧ - rows ≤ p.2 < rows) ∧
      q = (if bool_decide (p.1 < 0) then cols + p.1 else p.1,
           if bool_decide (p.2 < 0) then rows + p.2 else p.2)
  | inl e => e = IndexError ∧ ¬ (- cols ≤ p.1 < cols ∧ - rows ≤ p.2 < rows)
  end.
Proof.
  unfold grid_index.
  pose proof (py_index_cases cols p.1) as Hx.
  pose proof (py_index_cases rows p.2) as Hy.
  destruct (py_index cols p.1) as [e1|x]; [split; [tauto|tauto]|].
  destruct (py_index rows p.2) as [e2|y]; [split; [tauto|tauto]|].
  destruct Hx as [Hx ->], Hy as [Hy ->]. done.
Qed.
End Scan_facts.


(** * The claims *)

Section Claims.
Variables cols rows : Z.

(** C2 (as amended): at every point of a run where the engine has a
    current cell, [get_path] returns, given enough fuel for its loop, the
    predecessor walk that begins at the current cell: the current cell
    comes first, every next cell is the parent of the one before, and the
    start cell comes last.  The walk is not reversed. *)
Theorem get_path_walk (obstacles : list (Z * Z))
    (points : option ((Z * Z) * (Z * Z))) (s0 : AStarPathfinder)
    (n : nat) (c : pos) :
  launch cols rows obstacles points = inr s0 →
  current (run cols rows n s0) = Some c →
  let s := run cols rows n s0 in
  ∃ l, (∀ fuel, (Z.to_nat (Cell.g (cell (grid s) c)) < fuel)%nat →
                get_path fuel s = Some l) ∧
       head l = Some c ∧ last l = Some (start s) ∧ chain (grid s) l.
Proof.
  intros Hl Hc s.
  destruct (launch_run_ok cols rows obstacles points s0 n Hl) as [Hok Hb].
  fold s in Hok, Hb, Hc.
  destruct (parent_walk_linked cols rows _ _ _ _ (eng_store _ _ _ Hok)
              (S (Z.to_nat (Cell.g (cell (grid s) c)))) c)
    as (l & Hwalk & Hrest).
  - by apply (eng_current _ _ _ Hok).
  - pose proof (ok_g _ _ _ _ _ _ (eng_store _ _ _ Hok) c). lia.
  - exists l. split; [|done]. intros fuel Hfuel.
    unfold get_path. rewrite Hc. apply Hwalk. lia.
Qed.

(** C3 (as amended): when [step] expands a cell, a neighbor that is
    neither closed nor an obstacle and has no entry in the open set gets
    its record and one entry, carrying the estimate of the record; no
    other entry is added; every cell that had an entry, the popped one
    apart, still has one, and no cell has two: for a neighbor that already
    has an entry nothing is pushed, also when its cost record is
    updated. *)
Theorem push_iff_no_entry (obstacles : list (Z * Z))
    (points : option ((Z * Z) * (Z * Z))) (s0 : AStarPathfinder)
    (n : nat) (cur : pos) :
  launch cols rows obstacles points = inr s0 →
  expands (run cols rows n s0) = Some cur →
  let s := run cols rows n s0 in
  let s' := exec_step cols rows s in
  let scanned (c : pos) :=
    c ∈ add_neighbors cols rows cur ∧ (c ∉ closed_set s) ∧
    Cell.obstacle (cell (grid s) c) = false in
  let estimate (c : pos) :=
    Cell.g (cell (grid s) cur) + cost cur c + heuristic c (end_ s) in
  (∀ c, scanned c → c ∉ get_open_nodes s →
        (estimate c, c) ∈ open_set s' ∧
        cell (grid s') c =
          Cell.mk (estimate c) (Cell.g (cell (grid s) cur) + cost cur c)
            (heuristic c (end_ s)) (Some cur) false) ∧
  (∀ e, e ∈ open_set s' →
        e ∈ open_set s ∨
        (scanned e.2 ∧ (e.2 ∉ get_open_nodes s) ∧ e.1 = estimate e.2)) ∧
  (∀ c, c ∈ get_open_nodes s → c ≠ cur → c ∈ get_open_nodes s') ∧
  (cur ∉ get_open_nodes s') ∧
  NoDup (get_open_nodes s').
Proof.
  intros Hl He s s' scanned estimate.
  destruct (launch_run_ok cols rows obstacles points s0 n Hl) as [Hok Hb].
  fold s in Hok, Hb, He.
  destruct (expands_Some cols rows s cur He) as (Hf & Hne & fr & open & Hpop & Hstep).
  pose proof (heappop_perm _ _ _ _ Hpop) as HP.
  pose proof (heappop_nodes _ _ _ _ Hpop) as HN. simpl in HN.
  pose proof (engine_ok_step cols rows s Hb Hok) as Hok'. fold s' in Hok'.
  assert (cur ∈ ({[cur]} ∪ closed_set s : gset pos)) as Hcur by set_solver.
  split_and!.
  - intros c (Hc & Hnc & Hob) Hno.
    destruct (relax_loop_pushes_if (end_ s) cur ({[cur]} ∪ closed_set s)
                (add_neighbors cols rows cur) (NoDup_add_neighbors cols rows cur)
                Hcur (grid s) open c) as [Hin Hcell]; try done.
    + intros [->%elem_of_singleton|?]%elem_of_union; [|done].
      by apply add_neighbors_irrefl in Hc.
    + intros Hin. apply Hno. unfold get_open_nodes. rewrite HN. by right.
    + unfold s'. rewrite Hstep. cbn [open_set grid]. by split.
  - intros e. unfold s'. rewrite Hstep. cbn [open_set].
    intros [Hin|(Hns & Hest & Hnc & Hob & Hno)]
      %(relax_loop_pushes_only _ _ _ _ _ Hcur).
    + left. rewrite HP. by right.
    + right. unfold scanned. split_and!; try done.
      * intros Hin. apply Hnc, elem_of_union. by right.
      * unfold get_open_nodes. rewrite HN.
        intros [Heq|Hin]%elem_of_cons; [|done].
        apply Hnc, elem_of_union. left. by apply elem_of_singleton.
  - intros c Hc Hcc. unfold s'. rewrite Hstep. unfold get_open_nodes.
    cbn [open_set]. unfold get_open_nodes in Hc. rewrite HN in Hc.
    apply elem_of_cons in Hc as [->|Hc]; [done|].
    apply list_elem_of_fmap in Hc as (e & -> & Hin).
    apply list_elem_of_fmap. exists e. split; [done|].
    by apply relax_loop_keeps.
  - intros Hin.
    apply (ok_disjoint _ _ _ _ _ _ (eng_store _ _ _ Hok')) in Hin.
    apply Hin. unfold s'. rewrite Hstep. cbn [closed_set]. set_solver.
  - exact (ok_nodup _ _ _ _ _ _ (eng_store _ _ _ Hok')).
Qed.


(** C5 (as amended): construction checks nothing.  [setup] succeeds
    exactly when the four indices of the two points (those given, or the
    defaults (64, 15) and (6, 51)) are valid Python indices, that is in
    [-cols, cols) and [-rows, rows), a negative index counting from the far
    edge; it then returns a start and a goal cell inside the grid whose
    obstacle flags it has cleared.  Otherwise, and so on every grid without
    cells, it fails with Python's [IndexError].  The constructor of the
    engine accepts any grid and any two cells, and no call of [step]
    raises. *)
Theorem construction_unchecked :
  (∀ obstacles points,
     let '(sp, ep) := default ((64, 15), (6, 51)) points in
     let valid (q : Z * Z) := - cols ≤ q.1 < cols ∧ - rows ≤ q.2 < rows in
     let from_edge (q : Z * Z) : pos :=
       (if bool_decide (q.1 < 0) then cols + q.1 else q.1,
        if bool_decide (q.2 < 0) then rows + q.2 else q.2) in
     match setup cols rows obstacles points with
     | inl e => e = IndexError ∧ ¬ (valid sp ∧ valid ep)
     | inr (gr, st, en) =>
         valid sp ∧ valid ep ∧ st = from_edge sp ∧ en = from_edge ep ∧
         in_bounds cols rows st ∧ in_bounds cols rows en ∧
         Cell.obstacle (cell gr st) = false ∧ Cell.obstacle (cell gr en) = false
     end) ∧
  (∀ obstacles points,
     cols ≤ 0 ∨ rows ≤ 0 → setup cols rows obstacles points = inl IndexError) ∧
  (∀ gr st en, ∃ s, AStarPathfinder_init gr st en = inr s ∧
                    grid s = gr ∧ start s = st ∧ end_ s = en) ∧
  (∀ s, ∃ b, step cols rows s = inr (exec_step cols rows s, b)).
Proof.
  assert (∀ obstacles points,
     let '(sp, ep) := default ((64, 15), (6, 51)) points in
     let valid (q : Z * Z) := - cols ≤ q.1 < cols ∧ - rows ≤ q.2 < rows in
     let from_edge (q : Z * Z) : pos :=
       (if bool_decide (q.1 < 0) then cols + q.1 else q.1,
        if bool_decide (q.2 < 0) then rows + q.2 else q.2) in
     match setup cols rows obstacles points with
     | inl e => e = IndexError ∧ ¬ (valid sp ∧ valid ep)
     | inr (gr, st, en) =>
         valid sp ∧ valid ep ∧ st = from_edge sp ∧ en = from_edge ep ∧
         in_bounds cols rows st ∧ in_bounds cols rows en ∧
         Cell.obstacle (cell gr st) = false ∧ Cell.obstacle (cell gr en) = false
     end) as Hsetup.
  { intros obstacles points.
    pose proof (setup_spec cols rows obstacles points) as Hspec.
    unfold setup in *.
    replace (match points with Some p => p | None => ((64, 15), (6, 51)) end)
      with (default ((64, 15), (6, 51)) points) in * by (by destruct points).
    destruct (default ((64, 15), (6, 51)) points) as [sp ep].
    pose proof (grid_index_cases cols rows sp) as Hs.
    pose proof (grid_index_cases cols rows ep) as He.
    destruct (grid_index cols rows sp) as [e1|st]; [split; tauto|].
    destruct (grid_index cols rows ep) as [e2|en]; [split; tauto|].
    destruct Hs as [Hvs ->], He as [Hve ->].
    destruct (Hspec _ _ _ eq_refl) as (_ & ? & ? & ? & ?). done. }
  split_and!.
  - exact Hsetup.
  - intros obstacles points Hdim. specialize (Hsetup obstacles points).
    destruct (default ((64, 15), (6, 51)) points) as [sp ep].
    destruct (setup cols rows obstacles points) as [e|[[gr st] en]].
    + destruct Hsetup as [-> _]. done.
    + destruct Hsetup as (Hvs & _). lia.
  - intros gr st en. by eexists.
  - apply step_no_exception.
Qed.


(** C7 (as amended): [heappop] on the open set extracts an entry whose
    recorded estimate is the least in the open set.  Among entries of
    equal estimate the order is that of the binary heap: two such entries
    whose cells have the same current [f] compare as equal, whichever was
    pushed first. *)
Theorem popmin_least_estimate (obstacles : list (Z * Z))
    (points : option ((Z * Z) * (Z * Z))) (s0 : AStarPathfinder) (n : nat)
    (e : entry) (open : list entry) :
  launch cols rows obstacles points = inr s0 →
  heappop (entry_lt (grid (run cols rows n s0))) (open_set (run cols rows n s0))
    = Some (e, open) →
  (∀ e', e' ∈ open_set (run cols rows n s0) → e.1 ≤ e'.1) ∧
  (∀ gr (a b : entry),
     a.1 = b.1 → Cell.f (cell gr a.2) = Cell.f (cell gr b.2) →
     entry_lt gr a b = false ∧ entry_lt gr b a = false).
Proof.
  intros Hl Hpop.
  destruct (launch_run_ok cols rows obstacles points s0 n Hl) as [Hok Hb].
  split.
  - eapply (heappop_ok fst (entry_lt _));
      [apply entry_lt_true|apply entry_lt_false| |exact Hpop].
    exact (ok_heap _ _ _ _ _ _ (eng_store _ _ _ Hok)).
  - intros gr a b H1 H2. unfold entry_lt, Cell_lt.
    rewrite H1, H2, !bool_decide_eq_true_2 by done.
    rewrite Z.ltb_irrefl. by repeat case_bool_decide.
Qed.

(** C8: from every start that [setup] accepts, the calls of [step]
    expand at most [cols * rows] cells, and after more than [cols * rows]
    calls the engine has ended. *)
Theorem terminates_within_grid (obstacles : list (Z * Z))
    (points : option ((Z * Z) * (Z * Z))) (s0 : AStarPathfinder) :
  launch cols rows obstacles points = inr s0 →
  (∀ n, Z.of_nat (length (expansions cols rows n s0)) ≤ cols * rows) ∧
  (∀ n, cols * rows < Z.of_nat n → found (run cols rows n s0) = true).
Proof.
  intros Hl.
  destruct (launch_run_ok cols rows obstacles points s0 0 Hl) as [Hok Hb].
  simpl in Hok, Hb.
  assert (∀ n, Z.of_nat (length (expansions cols rows n s0)) ≤ cols * rows) as Hle.
  { intros n. destruct (expansions_ok cols rows n s0 Hb Hok) as [Hnd Hin].
    destruct Hb as [? ?].
    apply bounded_nodup_length; [lia|lia|done|]. intros c Hc. by apply Hin. }
  split; [done|]. intros n Hn.
  destruct (found (run cols rows n s0)) eqn:Hf; [done|].
  apply running_expansions in Hf. specialize (Hle n). lia.
Qed.

(** C9: at every point of a run the open set holds at most one entry per
    cell, so it never holds more than [cols * rows] entries; and the
    neighbor loop leaves the open set as it is for a cell that the scan
    finds in it. *)
Theorem open_set_one_entry_per_cell (obstacles : list (Z * Z))
    (points : option ((Z * Z) * (Z * Z))) (s0 : AStarPathfinder) (n : nat) :
  launch cols rows obstacles points = inr s0 →
  NoDup (get_open_nodes (run cols rows n s0)) ∧
  Z.of_nat (length (open_set (run cols rows n s0))) ≤ cols * rows ∧
  (∀ en cur closed gr open c,
     in_open open c = true → (relax en cur closed (gr, open) c).2 = open).
Proof.
  intros Hl.
  destruct (launch_run_ok cols rows obstacles points s0 n Hl) as [Hok Hb].
  pose proof (ok_nodup _ _ _ _ _ _ (eng_store _ _ _ Hok)) as Hnd.
  split_and!.
  - done.
  - assert (length (open_set (run cols rows n s0)) =
            length (open_set (run cols rows n s0)).*2) as ->
      by (symmetry; apply length_fmap).
    destruct Hb as [? ?].
    apply bounded_nodup_length; [lia|lia|done|].
    intros c Hc. eapply ok_bounds; [apply Hok|by left].
  - intros en cur closed gr open c Hio. unfold relax. rewrite Hio. simpl.
    destruct (bool_decide (c ∉ closed) && _); [|done].
    by destruct (_ <? _).
Qed.

(** C10: on an engine that has just been constructed [get_path] returns
    the empty list, whatever the fuel. *)
Theorem get_path_before_first_step (gr : gmap pos Cell.t) (st en : pos)
    (s : AStarPathfinder) (fuel : nat) :
  AStarPathfinder_init gr st en = inr s → get_path fuel s = Some [].
Proof. by intros [= <-]. Qed.
End Claims.

(** * The claims on the farm grid *)

(** C1: on the farm with the pocket obstacles, from (1, 1) to (6, 0), the
    engine reports the goal at the 19th call of [step] and not before, and
    the path it has then is a route of 10 edges, while a route of 8 edges
    exists: the path found is not a shortest one. *)
Theorem found_route_not_shortest :
  let s0 := farm pocket_obstacles (Some pocket_points) in
  let s := run COLS ROWS 19 s0 in
  launch COLS ROWS pocket_obstacles (Some pocket_points) = inr s0 ∧
  found (run COLS ROWS 18 s0) = false ∧
  found s = true ∧ current s = Some (6, 0) ∧
  get_path 11 s =
    Some [(6, 0); (6, 1); (6, 2); (5, 2); (4, 2); (4, 1); (4, 0); (3, 0);
          (2, 0); (1, 0); (1, 1)] ∧
  route COLS ROWS (grid s) (1, 1) (6, 0)
    [(1, 1); (1, 0); (2, 0); (3, 0); (4, 0); (4, 1); (4, 2); (5, 2); (6, 2);
     (6, 1); (6, 0)]
    = true ∧
  route COLS ROWS (grid s) (1, 1) (6, 0)
    [(1, 1); (1, 2); (2, 2); (3, 2); (4, 2); (5, 2); (6, 2); (6, 1); (6, 0)]
    = true.
Proof. vm_compute. repeat split. Qed.

(** C2, counterexample: after two calls of [step] on the empty farm with
    the default points, the list that [get_path] returns begins with the
    current cell (63, 15) and ends with the start cell (64, 15). *)
Lemma get_path_starts_at_current :
  let s := run COLS ROWS 2 (farm [] None) in
  get_path 2 s = Some [(63, 15); (64, 15)] ∧
  ¬ (∀ l, get_path 2 s = Some l → head l = Some (start s) ∧ last l = current s).
Proof.
  split; [by vm_compute|].
  intros H. destruct (H [(63, 15); (64, 15)]) as [Hh _]; [by vm_compute|].
  vm_compute in Hh. congruence.
Qed.

Lemma get_path_walk_witness :
  let s := run COLS ROWS 2 (farm [] None) in
  let c : pos := (63, 15) in
  ∃ l, (∀ fuel, (Z.to_nat (Cell.g (cell (grid s) c)) < fuel)%nat →
                get_path fuel s = Some l) ∧
       head l = Some c ∧ last l = Some (start s) ∧ chain (grid s) l.
Proof.
  apply (get_path_walk COLS ROWS [] None (farm [] None) 2 (63, 15));
    reflexivity.
Defined.

(** C3, counterexample: on the empty farm, from (20, 0) to (18, 3), the
    tenth call of [step] expands (20, 2) and lowers the cost of its neighbor
    (20, 3) from 5 to 3, with a new parent and a new [f] of 5; the open set
    holds the one entry (7, (20, 3)) before the call and the same one entry
    after it: the record is updated and nothing is pushed. *)
Lemma record_updated_without_push :
  let s := run COLS ROWS 9 (farm [] (Some ((20, 0), (18, 3)))) in
  let s' := exec_step COLS ROWS s in
  let n : pos := (20, 3) in
  expands s = Some (20, 2) ∧
  add_neighbors COLS ROWS (20, 2) = [(21, 2); (19, 2); n; (20, 1)] ∧
  cell (grid s) n = Cell.mk 7 5 2 (Some (19, 3)) false ∧
  cell (grid s') n = Cell.mk 5 3 2 (Some (20, 2)) false ∧
  filter (λ e : entry, e.2 = n) (open_set s) = [(7, n)] ∧
  filter (λ e : entry, e.2 = n) (open_set s') = [(7, n)].
Proof. vm_compute. repeat split. Qed.

(** At the same call the neighbor (21, 2), which has no entry, is given
    its record and the entry (7, (21, 2)). *)
Lemma entry_pushed_without_entry :
  let s := run COLS ROWS 9 (farm [] (Some ((20, 0), (18, 3)))) in
  let s' := exec_step COLS ROWS s in
  let n : pos := (21, 2) in
  filter (λ e : entry, e.2 = n) (open_set s) = [] ∧
  cell (grid s) n = Cell.init ∧
  cell (grid s') n = Cell.mk 7 3 4 (Some (20, 2)) false ∧
  filter (λ e : entry, e.2 = n) (open_set s') = [(7, n)].
Proof. vm_compute. repeat split. Qed.

Lemma push_iff_no_entry_witness :
  let s0 := farm [] (Some ((20, 0), (18, 3))) in
  let s := run COLS ROWS 9 s0 in
  let s' := exec_step COLS ROWS s in
  let cur : pos := (20, 2) in
  let scanned (c : pos) :=
    c ∈ add_neighbors COLS ROWS cur ∧ (c ∉ closed_set s) ∧
    Cell.obstacle (cell (grid s) c) = false in
  let estimate (c : pos) :=
    Cell.g (cell (grid s) cur) + cost cur c + heuristic c (end_ s) in
  launch COLS ROWS [] (Some ((20, 0), (18, 3))) = inr s0 ∧
  expands s = Some cur ∧
  (∀ c, scanned c → c ∉ get_open_nodes s →
        (estimate c, c) ∈ open_set s' ∧
        cell (grid s') c =
          Cell.mk (estimate c) (Cell.g (cell (grid s) cur) + cost cur c)
            (heuristic c (end_ s)) (Some cur) false) ∧
  (∀ e, e ∈ open_set s' →
        e ∈ open_set s ∨
        (scanned e.2 ∧ (e.2 ∉ get_open_nodes s) ∧ e.1 = estimate e.2)) ∧
  (∀ c, c ∈ get_open_nodes s → c ≠ cur → c ∈ get_open_nodes s') ∧
  (cur ∉ get_open_nodes s') ∧
  NoDup (get_open_nodes s').
Proof.
  intros s0 s s' cur scanned estimate.
  split; [reflexivity|]. split; [by vm_compute|].
  apply (push_iff_no_entry COLS ROWS [] (Some ((20, 0), (18, 3))) s0 9 cur);
    [reflexivity|by vm_compute].
Defined.



(** C5, counterexample: with both default end points listed as obstacles
    the engine is constructed all the same; a start column of 80 raises
    [IndexError] and a start column of -1 is taken for the last column; on
    a grid of no cells [setup] raises [IndexError], and the constructor
    itself accepts the empty grid. *)
Lemma construction_raises_no_invalid :
  (∃ s, launch COLS ROWS [(64, 15); (6, 51)] None = inr s ∧
        start s = (64, 15) ∧ end_ s = (6, 51)) ∧
  launch COLS ROWS [] (Some ((80, 0), (0, 0))) = inl IndexError ∧
  (∃ s, launch COLS ROWS [] (Some ((-1, 0), (0, 0))) = inr s ∧ start s = (79, 0)) ∧
  launch 0 0 [] None = inl IndexError ∧
  (∃ s, AStarPathfinder_init ∅ (0, 0) (0, 0) = inr s).
Proof.
  split_and!.
  - eexists. by vm_compute.
  - by vm_compute.
  - eexists. by vm_compute.
  - by vm_compute.
  - by eexists.
Qed.

(** C6 on the farm: from (0, 0) to (1, 0) on the empty farm the second
    call of [step] pops the goal; with the start fenced in, the second call
    meets an empty open set.  The engine is running before either call;
    after it the first engine reads as [FOUND] and the second as
    [EXHAUSTED], and the two calls print different messages. *)
Lemma both_endings_observed :
  let a := run COLS ROWS 1 (farm [] (Some ((0, 0), (1, 0)))) in
  let b := run COLS ROWS 1 (farm fenced_obstacles (Some fenced_points)) in
  status_of a = RUNNING ∧ status_of b = RUNNING ∧
  open_set a = [(1, (1, 0)); (3, (0, 1))] ∧ open_set b = [] ∧
  status_of (exec_step COLS ROWS a) = FOUND ∧
  status_of (exec_step COLS ROWS b) = EXHAUSTED ∧
  step_prints a = Some "Path found!"%string ∧
  step_prints b = Some "No solution found"%string ∧
  current (exec_step COLS ROWS a) = Some (1, 0) ∧
  current (exec_step COLS ROWS b) = Some (0, 0).
Proof. vm_compute. repeat split. Qed.


(** C7, counterexample: on the empty farm with the default points, the
    entry (94, (63, 16)) is in the open set after two calls of [step], and
    (64, 17) gets its entry, also with estimate 94, only in the third call;
    yet the fifth call pops (94, (64, 17)) and leaves (94, (63, 16))
    waiting. *)
Lemma later_entry_popped_first :
  let s0 := farm [] None in
  open_set (run COLS ROWS 2 s0) =
    [(94, (64, 16)); (94, (62, 15)); (96, (64, 14)); (96, (65, 15));
     (94, (63, 16)); (96, (63, 14))] ∧
  open_set (run COLS ROWS 3 s0) =
    [(94, (62, 15)); (94, (63, 16)); (94, (64, 17)); (96, (65, 15));
     (96, (63, 14)); (96, (65, 16)); (96, (64, 14))] ∧
  heappop (entry_lt (grid (run COLS ROWS 4 s0))) (open_set (run COLS ROWS 4 s0)) =
    Some ((94, (64, 17)),
          [(94, (61, 15)); (94, (63, 16)); (96, (65, 16)); (94, (62, 16));
           (96, (63, 14)); (96, (64, 14)); (96, (62, 14)); (96, (65, 15))]) ∧
  expansions COLS ROWS 5 s0 = [(64, 15); (63, 15); (64, 16); (62, 15); (64, 17)].
Proof. vm_compute. repeat split. Qed.

Lemma popmin_least_estimate_witness :
  let s0 := farm [] None in
  let s := run COLS ROWS 4 s0 in
  let e : entry := (94, (64, 17)) in
  let open : list entry :=
    [(94, (61, 15)); (94, (63, 16)); (96, (65, 16)); (94, (62, 16));
     (96, (63, 14)); (96, (64, 14)); (96, (62, 14)); (96, (65, 15))] in
  launch COLS ROWS [] None = inr s0 ∧
  heappop (entry_lt (grid s)) (open_set s) = Some (e, open) ∧
  (∀ e', e' ∈ open_set s → e.1 ≤ e'.1) ∧
  (∀ gr (a b : entry),
     a.1 = b.1 → Cell.f (cell gr a.2) = Cell.f (cell gr b.2) →
     entry_lt gr a b = false ∧ entry_lt gr b a = false).
Proof.
  intros s0 s e open.
  split; [reflexivity|]. split; [by vm_compute|].
  apply (popmin_least_estimate COLS ROWS [] None s0 4 e open);
    [reflexivity|by vm_compute].
Defined.

Lemma terminates_within_grid_witness :
  let s0 := farm pocket_obstacles (Some pocket_points) in
  launch COLS ROWS pocket_obstacles (Some pocket_points) = inr s0 ∧
  (∀ n, Z.of_nat (length (expansions COLS ROWS n s0)) ≤ COLS * ROWS) ∧
  (∀ n, COLS * ROWS < Z.of_nat n → found (run COLS ROWS n s0) = true).
Proof.
  split; [reflexivity|].
  apply (terminates_within_grid COLS ROWS pocket_obstacles (Some pocket_points)).
  reflexivity.
Defined.

Lemma open_set_one_entry_per_cell_witness :
  let s0 := farm [] None in
  launch COLS ROWS [] None = inr s0 ∧
  NoDup (get_open_nodes (run COLS ROWS 4 s0)) ∧
  Z.of_nat (length (open_set (run COLS ROWS 4 s0))) ≤ COLS * ROWS ∧
  (∀ en cur closed gr open c,
     in_open open c = true → (relax en cur closed (gr, open) c).2 = open).
Proof.
  split; [reflexivity|].
  apply (open_set_one_entry_per_cell COLS ROWS [] None (farm [] None) 4).
  reflexivity.
Defined.

Lemma get_path_before_first_step_witness :
  let s := mkAStarPathfinder ∅ (64, 15) (6, 51) [(0, (64, 15))] ∅ None [] false in
  AStarPathfinder_init ∅ (64, 15) (6, 51) = inr s ∧ get_path 7 s = Some [].
Proof.
  split; [reflexivity|].
  apply (get_path_before_first_step ∅ (64, 15) (6, 51)). reflexivity.
Defined.

(** * Further facts about the grid and the search *)

Lemma heuristic_sym (a b : pos) : heuristic a b = heuristic b a.
Proof. unfold heuristic. lia. Qed.

Lemma heuristic_nonneg (a b : pos) : 0 ≤ heuristic a b.
Proof. unfold heuristic. lia. Qed.

Lemma heuristic_zero (a b : pos) : heuristic a b = 0 ↔ a = b.
Proof.
  destruct a as [ax ay], b as [bx by_]. unfold heuristic. simpl. split.
  - intros H. f_equal; lia.
  - intros [= -> ->]. lia.
Qed.

Lemma heuristic_triangle (a b c : pos) :
  heuristic a c ≤ heuristic a b + heuristic b c.
Proof. unfold heuristic. lia. Qed.

Section Neighbor_facts.
Variables cols rows : Z.

Lemma elem_of_guarded_singleton (P : Prop) `{!Decision P} (n q : pos) :
  n ∈ (if bool_decide P then [q] else []) ↔ P ∧ n.1 = q.1 ∧ n.2 = q.2.
Proof.
  destruct n as [nx ny], q as [qx qy]. simpl. case_bool_decide as HP.
  - rewrite list_elem_of_singleton. split; [intros [= -> ->]; done|].
    intros (_ & -> & ->). done.
  - split; [by intros ?%elem_of_nil|tauto].
Qed.

Lemma elem_of_add_neighbors (p n : pos) :
  in_bounds cols rows p →
  n ∈ add_neighbors cols rows p ↔ in_bounds cols rows n ∧ heuristic p n = 1.
Proof.
  destruct p as [x y], n as [nx ny]. intros [Hx Hy]. simpl in *.
  unfold add_neighbors, in_bounds, heuristic.
  rewrite !elem_of_app, !elem_of_guarded_singleton. simpl. lia.
Qed.

Lemma add_neighbors_sym (p n : pos) :
  in_bounds cols rows p → in_bounds cols rows n →
  n ∈ add_neighbors cols rows p ↔ p ∈ add_neighbors cols rows n.
Proof.
  intros Hp Hn. rewrite !elem_of_add_neighbors by done.
  rewrite (heuristic_sym p n). tauto.
Qed.

Lemma length_add_neighbors (p : pos) : (length (add_neighbors cols rows p) ≤ 4)%nat.
Proof.
  destruct p as [x y]. unfold add_neighbors.
  repeat case_bool_decide; simpl; lia.
Qed.
End Neighbor_facts.

Section Search_facts.
Variables cols rows : Z.

Lemma relax_loop_frozen (en cur : pos) (closed : gset pos) (ns : list pos) (p : pos) :
  ∀ gr open, p ∈ closed →
    cell (foldl (relax en cur closed) (gr, open) ns).1 p = cell gr p.
Proof.
  induction ns as [|n ns IH]; intros gr open Hp; [done|].
  cbn [foldl].
  pose proof (relax_frozen en cur closed gr open n p (or_intror Hp)) as Hn.
  destruct (relax en cur closed (gr, open) n) as [gr1 open1].
  rewrite IH by done. done.
Qed.

Lemma relax_loop_obstacle (en cur : pos) (closed : gset pos) (ns : list pos) (p : pos) :
  ∀ gr open,
    Cell.obstacle (cell (foldl (relax en cur closed) (gr, open) ns).1 p) =
    Cell.obstacle (cell gr p).
Proof.
  induction ns as [|n ns IH]; intros gr open; [done|].
  cbn [foldl].
  pose proof (relax_obstacle en cur closed gr open n p) as Hn.
  destruct (relax en cur closed (gr, open) n) as [gr1 open1].
  rewrite IH. done.
Qed.

Lemma relax_search_ok (gr0 : gmap pos Cell.t) (st en cur : pos) (closed : gset pos)
    (gr : gmap pos Cell.t) (open : list entry) (n : pos) :
  store_ok cols rows st gr open closed →
  search_ok cols rows gr0 st en gr open closed →
  st ∈ closed → cur ∈ closed → n ∈ add_neighbors cols rows cur →
  search_ok cols rows gr0 st en (relax en cur closed (gr, open) n).1
    (relax en cur closed (gr, open) n).2 closed.
Proof.
  intros Hst [Hob Hpar Hest Hent [Hsg Hso] Hgoal] Hstc Hcur Hn. unfold relax.
  destruct (bool_decide (n ∉ closed) && negb (Cell.obstacle (cell gr n)))
    eqn:Hguard; [|done].
  apply andb_true_iff in Hguard as [Hnc%bool_decide_eq_true Hfree%negb_true_iff].
  set (tg := Cell.g (cell gr cur) + cost cur n).
  destruct (negb (in_open open n) || (tg <? Cell.g (cell gr n))) eqn:Hupd; [|done].
  assert (n ≠ st) as Hnst by set_solver.
  set (c := Cell.mk (tg + heuristic n en) tg (heuristic n en) (Some cur)
              (Cell.obstacle (cell gr n))).
  set (gr' := <[n := c]> gr).
  assert (∀ p, Cell.obstacle (cell gr' p) = Cell.obstacle (cell gr0 p)) as Hob'.
  { intros p. unfold gr'. rewrite cell_insert. case_decide; [subst; apply Hob|apply Hob]. }
  assert (∀ a p, Cell.parent (cell gr' a) = Some p →
                 a ∈ add_neighbors cols rows p ∧ Cell.obstacle (cell gr' a) = false)
    as Hpar'.
  { intros a p. unfold gr'. rewrite !cell_insert.
    case_decide; [subst; simpl; by intros [= <-]|apply Hpar]. }
  assert (∀ a, is_Some (Cell.parent (cell gr' a)) →
               Cell.h (cell gr' a) = heuristic a en ∧
               Cell.f (cell gr' a) = Cell.g (cell gr' a) + Cell.h (cell gr' a))
    as Hest'.
  { intros a. unfold gr'. rewrite !cell_insert.
    case_decide; [subst; simpl; done|apply Hest]. }
  assert (Cell.g (cell gr' st) = 0 ∧ Cell.obstacle (cell gr' st) = false) as Hs'.
  { unfold gr'. rewrite cell_insert. by case_decide. }
  destruct (in_open open n) eqn:Hio; simpl.
  - constructor; try done.
    intros e He. unfold gr'. rewrite cell_insert.
    case_decide as Hen; [|by apply Hent]. simpl.
    simpl in Hupd. apply Z.ltb_lt in Hupd.
    assert (is_Some (Cell.parent (cell gr n))) as Hsome.
    { eapply ok_linked; [exact Hst| |done].
      left. by apply in_open_spec. }
    destruct (Hest n Hsome) as [Hh Hf].
    specialize (Hent e He). rewrite <- Hen in Hent. lia.
  - constructor; try done.
    intros e. rewrite heappush_perm. unfold gr'.
    intros [->|He]%elem_of_cons; simpl.
    + rewrite cell_insert, decide_True by done. done.
    + rewrite cell_insert. case_decide as Hen; [|by apply Hent].
      exfalso. assert (in_open open n = true); [|congruence].
      apply in_open_spec, list_elem_of_fmap. eauto.
Qed.

Lemma relax_loop_search_ok (gr0 : gmap pos Cell.t) (st en cur : pos)
    (closed : gset pos) (ns : list pos) :
  ∀ gr open,
    store_ok cols rows st gr open closed →
    search_ok cols rows gr0 st en gr open closed →
    st ∈ closed → cur ∈ closed → in_bounds cols rows cur →
    (∀ n, n ∈ ns → n ∈ add_neighbors cols rows cur) →
    search_ok cols rows gr0 st en (foldl (relax en cur closed) (gr, open) ns).1
      (foldl (relax en cur closed) (gr, open) ns).2 closed.
Proof.
  induction ns as [|n ns IH]; intros gr open Hst Hsk Hstc Hcur Hcb Hns; [done|].
  cbn [foldl].
  assert (n ∈ add_neighbors cols rows cur) as Hn by (apply Hns; by left).
  pose proof (relax_ok cols rows st en cur closed gr open n Hst Hstc Hcur
                (add_neighbors_bounds cols rows cur n Hcb Hn)) as Hst1.
  pose proof (relax_search_ok gr0 st en cur closed gr open n Hst Hsk Hstc Hcur Hn)
    as Hsk1.
  destruct (relax en cur closed (gr, open) n) as [gr1 open1].
  apply IH; try done. intros m Hm. apply Hns. by right.
Qed.

Lemma relax_covers (en cur : pos) (closed : gset pos) (gr : gmap pos Cell.t)
    (open : list entry) (n : pos) :
  Cell.obstacle (cell gr n) = false →
  n ∈ closed ∨ n ∈ (relax en cur closed (gr, open) n).2.*2.
Proof.
  intros Hfree. unfold relax. rewrite Hfree. simpl.
  case_bool_decide as Hnc; simpl; [|by left].
  right. destruct (in_open open n) eqn:Hio; simpl.
  - apply in_open_spec in Hio. by destruct (_ <? _).
  - rewrite heappush_perm. simpl. by left.
Qed.

Lemma relax_loop_nodes (en cur : pos) (closed : gset pos) (ns : list pos) (c : pos) :
  ∀ gr open, c ∈ open.*2 → c ∈ (foldl (relax en cur closed) (gr, open) ns).2.*2.
Proof.
  intros gr open (e & -> & He)%list_elem_of_fmap.
  apply list_elem_of_fmap. exists e. split; [done|].
  by apply relax_loop_keeps.
Qed.

Lemma relax_loop_covers (en cur : pos) (closed : gset pos) (ns : list pos) :
  ∀ gr open n, n ∈ ns → Cell.obstacle (cell gr n) = false →
    n ∈ closed ∨ n ∈ (foldl (relax en cur closed) (gr, open) ns).2.*2.
Proof.
  induction ns as [|m ns IH]; intros gr open n Hn Hfree.
  { by apply elem_of_nil in Hn. }
  cbn [foldl].
  pose proof (relax_covers en cur closed gr open m) as Hm.
  pose proof (relax_obstacle en cur closed gr open m n) as Hob.
  destruct (relax en cur closed (gr, open) m) as [gr1 open1] eqn:Hr. simpl in *.
  apply elem_of_cons in Hn as [->|Hn].
  - destruct (Hm Hfree) as [?|Hin]; [by left|right].
    by apply relax_loop_nodes.
  - apply IH; [done|]. by rewrite Hob.
Qed.
End Search_facts.

Section Search_run_facts.
Variables cols rows : Z.

Lemma store_ok_pop (st : pos) (gr : gmap pos Cell.t) (open open' : list entry)
    (closed : gset pos) (fr : Z) (cur : pos) :
  store_ok cols rows st gr open closed →
  heappop (entry_lt gr) open = Some ((fr, cur), open') →
  store_ok cols rows st gr open' ({[cur]} ∪ closed) ∧
  cur ∈ open.*2 ∧ (cur ∉ open'.*2) ∧ (cur ∉ closed).
Proof.
  intros [Hnd Hdis Hbd Hsp Hpar Hg Hlk Hheap] Hpop.
  pose proof (heappop_nodes _ _ _ _ Hpop) as HP. simpl in HP.
  assert (cur ∈ open.*2) as Hcin by (rewrite HP; by left).
  rewrite HP in Hnd. apply NoDup_cons in Hnd as [Hcn Hnd].
  split_and!; [|done|done|by apply Hdis].
  constructor; try done.
  - intros a Ha. rewrite elem_of_union, elem_of_singleton.
    intros [->|Hc]; [done|]. eapply Hdis; [|done]. rewrite HP. by right.
  - intros a. rewrite elem_of_union, elem_of_singleton.
    intros [Ha|[->|Ha]]; apply Hbd; [left; rewrite HP; by right|by left|by right].
  - intros a p Hp. destruct (Hpar a p Hp). split; [set_solver|done].
  - intros a. rewrite elem_of_union, elem_of_singleton.
    intros [Ha|[->|Ha]]; apply Hlk; [left; rewrite HP; by right|by left|by right].
  - eapply (heappop_ok fst (entry_lt gr));
      [apply entry_lt_true|apply entry_lt_false|done|done].
Qed.

Lemma engine_search_ok_step (gr0 : gmap pos Cell.t) (s : AStarPathfinder) :
  in_bounds cols rows (start s) → engine_ok cols rows s →
  engine_search_ok cols rows gr0 s →
  engine_search_ok cols rows gr0 (exec_step cols rows s).
Proof.
  intros Hsb [Hst Hstart Hcur Hgoal] [Hsk Hcov]. unfold exec_step.
  destruct (step_cases cols rows s)
    as [[_ ->]|[(Hf & Hnil & ->)|(Hf & fr & cur & open & Hpop & [[Hend ->]|[Hend ->]])]].
  - done.
  - constructor; simpl; [done|].
    destruct Hcov as [[_ ?]|(? & ? & _)]; [congruence|right]. done.
  - constructor; simpl; [|left; by subst].
    destruct Hsk as [Hob Hpar Hest Hent Hs Hg]. constructor; try done.
    intros e He. apply Hent. rewrite (heappop_perm _ _ _ _ Hpop). by right.
  - destruct (store_ok_pop _ _ _ _ _ _ _ Hst Hpop) as (Hmid & Hcin & Hcn & Hcc).
    pose proof (heappop_perm _ _ _ _ Hpop) as HPe.
    pose proof (heappop_nodes _ _ _ _ Hpop) as HP. simpl in HP.
    destruct Hcov as [[_ ?]|(Hsin & Hcover & _)]; [congruence|].
    assert (start s ∈ ({[cur]} ∪ closed_set s : gset pos)) as Hsc.
    { destruct Hstart as [?|Hall]; [set_solver|]. rewrite (Hall cur Hcin). set_solver. }
    assert (in_bounds cols rows cur) as Hcb.
    { eapply ok_bounds; [exact Hst|by left]. }
    assert (search_ok cols rows gr0 (start s) (end_ s) (grid s) open
              ({[cur]} ∪ closed_set s)) as Hskm.
    { destruct Hsk as [Hob Hpar Hest Hent Hs Hg]. constructor; try done.
      - intros e He. apply Hent. rewrite HPe. by right.
      - set_solver. }
    cbn zeta. constructor; simpl.
    + apply relax_loop_search_ok; try done. set_solver.
    + right. split_and!; [by left| |done].
      intros c Hc n Hn Hfree.
      rewrite relax_loop_obstacle in Hfree.
      apply elem_of_union in Hc as [->%elem_of_singleton|Hc].
      * by apply relax_loop_covers.
      * destruct (Hcover c Hc n Hn Hfree) as [Hin|Hin]; [left; set_solver|].
        rewrite HP in Hin. apply elem_of_cons in Hin as [->|Hin]; [left; set_solver|].
        right. by apply relax_loop_nodes.
Qed.

Lemma engine_search_ok_run (gr0 : gmap pos Cell.t) (n : nat) :
  ∀ s, in_bounds cols rows (start s) → engine_ok cols rows s →
       engine_search_ok cols rows gr0 s →
       engine_search_ok cols rows gr0 (run cols rows n s).
Proof.
  induction n as [|n IH]; intros s Hb Hok Hsk; [done|].
  simpl. apply IH.
  - by destruct (exec_step_start cols rows s) as [-> _].
  - by apply engine_ok_step.
  - by apply engine_search_ok_step.
Qed.

Lemma launch_search_ok (obstacles : list (Z * Z)) (points : option ((Z * Z) * (Z * Z)))
    (s0 : AStarPathfinder) (n : nat) :
  launch cols rows obstacles points = inr s0 →
  engine_search_ok cols rows (grid s0) (run cols rows n s0).
Proof.
  intros Hl.
  pose proof (launch_spec cols rows _ _ _ Hl)
    as (Hok & Hb & Hbe & Hfresh & Hopen & Hclosed & Hcur & Hfound).
  apply engine_search_ok_run; [done|done|].
  assert (Cell.obstacle (cell (grid s0) (start s0)) = false) as Hfree.
  { unfold launch in Hl.
    destruct (setup cols rows obstacles points) as [|[[gr st] en]] eqn:Hs; [done|].
    apply setup_spec in Hs as (_ & _ & _ & Hso & _).
    apply init_spec in Hl. subst s0. done. }
  constructor.
  - constructor.
    + done.
    + intros c p Hp. destruct (Hfresh c) as (_ & _ & Hn). congruence.
    + intros c [p Hp]. destruct (Hfresh c) as (_ & _ & Hn). congruence.
    + rewrite Hopen. intros e ->%list_elem_of_singleton. simpl.
      destruct (Hfresh (start s0)) as (-> & _). done.
    + destruct (Hfresh (start s0)) as (_ & -> & _). done.
    + rewrite Hclosed. apply not_elem_of_empty.
  - right. rewrite Hopen, Hclosed, Hfound. split_and!; [right; by left| |done].
    intros c Hc. by apply elem_of_empty in Hc.
Qed.

(** Routes built step by step. *)
Lemma linked_moves_snoc (l : list pos) (a b : pos) :
  last l = Some a → linked_moves l = true → heuristic a b = 1 →
  linked_moves (l ++ [b]) = true.
Proof.
  induction l as [|x l IH]; intros Hlast Hl Hab; [done|].
  destruct l as [|y l].
  - simpl in *. simplify_eq. by rewrite bool_decide_eq_true_2.
  - cbn [app linked_moves] in *.
    apply andb_true_iff in Hl as [Hxy Hl]. rewrite Hxy. simpl.
    apply IH; try done.
Qed.

Lemma route_snoc (gr : gmap pos Cell.t) (st a b : pos) (l : list pos) :
  route cols rows gr st a l = true → free_cell cols rows gr b = true →
  heuristic a b = 1 → route cols rows gr st b (l ++ [b]) = true.
Proof.
  unfold route. rewrite !andb_true_iff, !bool_decide_eq_true.
  intros [[[Hh Hl] Hfree] Hlink] Hb Hab. split_and!.
  - destruct l; [done|]. done.
  - apply last_snoc.
  - rewrite forallb_app, Hfree. simpl. by rewrite Hb.
  - by eapply linked_moves_snoc.
Qed.

Lemma route_singleton (gr : gmap pos Cell.t) (st : pos) :
  free_cell cols rows gr st = true → route cols rows gr st st [st] = true.
Proof.
  intros Hf. unfold route. simpl. rewrite Hf.
  by rewrite !bool_decide_eq_true_2.
Qed.

Lemma free_cell_spec (gr : gmap pos Cell.t) (p : pos) :
  free_cell cols rows gr p = true ↔
  in_bounds cols rows p ∧ Cell.obstacle (cell gr p) = false.
Proof.
  unfold free_cell, in_bounds.
  rewrite !andb_true_iff, !bool_decide_eq_true, negb_true_iff. tauto.
Qed.

Lemma parent_walk_route (gr0 : gmap pos Cell.t) (st en : pos)
    (gr : gmap pos Cell.t) (open : list entry) (closed : gset pos) :
  store_ok cols rows st gr open closed →
  search_ok cols rows gr0 st en gr open closed →
  in_bounds cols rows st →
  ∀ (k : nat) (c : pos),
    c = st ∨ is_Some (Cell.parent (cell gr c)) →
    Cell.g (cell gr c) < Z.of_nat k →
    ∃ l, (∀ fuel, (k ≤ fuel)%nat → parent_walk fuel gr (Some c) = Some l) ∧
         route cols rows gr st c (reverse l) = true ∧
         Z.of_nat (length l) = Cell.g (cell gr c) + 1.
Proof.
  intros Hok Hsk Hsb. induction k as [|k IH]; intros c Hc Hg.
  { pose proof (ok_g _ _ _ _ _ _ Hok c). lia. }
  destruct (Cell.parent (cell gr c)) as [p|] eqn:Hp.
  - destruct (ok_parent _ _ _ _ _ _ Hok c p Hp) as [Hpc Hgp].
    destruct (sk_parent _ _ _ _ _ _ _ _ Hsk c p Hp) as [Hnb Hfree].
    assert (in_bounds cols rows p) as Hpb.
    { eapply ok_bounds; [exact Hok|by right]. }
    destruct (IH p) as (l & Hwalk & Hroute & Hlen).
    { destruct (decide (p = st)); [by left|right].
      eapply ok_linked; [exact Hok|by right|done]. }
    { lia. }
    apply elem_of_add_neighbors in Hnb as [Hcb Hdist]; [|done].
    exists (c :: l). split_and!.
    + intros [|fuel] Hfuel; [lia|]. cbn [parent_walk].
      rewrite Hp, Hwalk by lia. done.
    + rewrite reverse_cons. eapply route_snoc; [exact Hroute| |done].
      by apply free_cell_spec.
    + simpl length. lia.
  - assert (c = st) as -> by (destruct Hc as [?|[? ?]]; congruence).
    destruct (sk_start _ _ _ _ _ _ _ _ Hsk) as [Hg0 Hfree].
    exists [st]. split_and!.
    + intros [|fuel] Hfuel; [lia|]. cbn [parent_walk]. rewrite Hp.
      by destruct fuel.
    + apply route_singleton. by apply free_cell_spec.
    + simpl. lia.
Qed.

Lemma closed_under_routes (gr : gmap pos Cell.t) (closed : gset pos) :
  (∀ c, c ∈ closed → in_bounds cols rows c) →
  (∀ c, c ∈ closed → covered cols rows gr [] closed c) →
  ∀ (l : list pos) (a : pos),
    head l = Some a → a ∈ closed →
    forallb (free_cell cols rows gr) l = true → linked_moves l = true →
    ∀ b, b ∈ l → b ∈ closed.
Proof.
  intros Hbd Hcov. induction l as [|x l IH]; intros a Hh Ha Hfree Hlink b Hb.
  { by apply elem_of_nil in Hb. }
  simpl in Hh. simplify_eq.
  apply elem_of_cons in Hb as [->|Hb]; [done|].
  destruct l as [|y l]; [by apply elem_of_nil in Hb|].
  cbn [forallb linked_moves] in *.
  apply andb_true_iff in Hfree as [_ Hfree].
  apply andb_true_iff in Hlink as [Hay%bool_decide_eq_true Hlink].
  assert (y ∈ closed) as Hy.
  { pose proof Hfree as Hfy. simpl in Hfy.
    apply andb_true_iff in Hfy as [[Hyb Hyo]%free_cell_spec _].
    destruct (Hcov a Ha y) as [?|Hin]; [|done|done|by apply elem_of_nil in Hin].
    apply elem_of_add_neighbors; [by apply Hbd|done]. }
  by eapply (IH y).
Qed.

Lemma route_obstacle_ext (gr gr' : gmap pos Cell.t) (st en : pos) (l : list pos) :
  (∀ p, Cell.obstacle (cell gr p) = Cell.obstacle (cell gr' p)) →
  route cols rows gr st en l = route cols rows gr' st en l.
Proof.
  intros Hob. unfold route. f_equal. f_equal.
  induction l as [|p l IH]; [done|]. simpl. rewrite IH.
  unfold free_cell. by rewrite Hob.
Qed.
End Search_run_facts.

(** * Further properties *)

(** X1: [heuristic] is a metric on cells: it is symmetric, never negative,
    zero exactly between a cell and itself, and obeys the triangle
    inequality. *)
Theorem heuristic_metric (a b c : pos) :
  heuristic a b = heuristic b a ∧ 0 ≤ heuristic a b ∧
  (heuristic a b = 0 ↔ a = b) ∧
  heuristic a c ≤ heuristic a b + heuristic b c.
Proof.
  split_and!; [apply heuristic_sym|apply heuristic_nonneg|apply heuristic_zero|
               apply heuristic_triangle].
Qed.

Section Extras.
Variables cols rows : Z.

(** X2: [heuristic] is consistent with [cost] on the grid: along every
    edge from a cell of the grid to one of its neighbors the estimate to
    any goal drops by no more than the cost of the edge, and it changes by
    exactly one. *)
Theorem heuristic_consistent (p n goal : pos) :
  in_bounds cols rows p → n ∈ add_neighbors cols rows p →
  heuristic p goal ≤ cost p n + heuristic n goal ∧
  Z.abs (heuristic p goal - heuristic n goal) = 1.
Proof.
  intros Hp [_ Hd]%elem_of_add_neighbors; [|done].
  unfold cost, heuristic in *. lia.
Qed.

(** X3: the neighbors of a cell of the grid are exactly the cells of the
    grid at Manhattan distance one from it, so being a neighbor is
    symmetric. *)
Theorem add_neighbors_adjacent (p n : pos) :
  in_bounds cols rows p →
  (n ∈ add_neighbors cols rows p ↔ in_bounds cols rows n ∧ heuristic p n = 1) ∧
  (n ∈ add_neighbors cols rows p → p ∈ add_neighbors cols rows n).
Proof.
  intros Hp. split; [by apply elem_of_add_neighbors|].
  intros Hn. pose proof Hn as [Hnb _]%elem_of_add_neighbors; [|done].
  by apply add_neighbors_sym.
Qed.

(** X4: a neighbor list has no duplicates, at most four cells, and never
    the cell itself. *)
Theorem add_neighbors_shape (p : pos) :
  NoDup (add_neighbors cols rows p) ∧
  (length (add_neighbors cols rows p) ≤ 4)%nat ∧
  p ∉ add_neighbors cols rows p.
Proof.
  split_and!; [apply NoDup_add_neighbors|apply length_add_neighbors|].
  destruct p as [x y]. unfold add_neighbors.
  rewrite !elem_of_app, !elem_of_guarded_singleton. simpl. lia.
Qed.

Lemma load_obstacles_flag (obstacles : list (Z * Z)) (p : pos) :
  ∀ gr, Cell.obstacle (cell (foldl (load_obstacle cols rows) gr obstacles) p) = true ↔
        Cell.obstacle (cell gr p) = true ∨ (p ∈ obstacles ∧ in_bounds cols rows p).
Proof.
  induction obstacles as [|o os IH]; intros gr.
  { simpl. split; [by left|]. intros [?|[?%elem_of_nil _]]; done. }
  cbn [foldl]. rewrite IH, elem_of_cons. unfold load_obstacle.
  destruct (bool_decide _ && bool_decide _) eqn:Hin.
  - apply andb_true_iff in Hin as [Hx%bool_decide_eq_true Hy%bool_decide_eq_true].
    rewrite cell_set_obstacle. case_decide as Heq.
    + subst o. simpl. unfold in_bounds. naive_solver.
    + naive_solver.
  - assert (¬ in_bounds cols rows o) as Hout.
    { unfold in_bounds. intros [? ?].
      apply andb_false_iff in Hin as [Hin|Hin];
        apply bool_decide_eq_false in Hin; done. }
    naive_solver.
Qed.

(** X5: after [setup] a cell carries the obstacle flag exactly when it is
    listed as an obstacle, lies inside the grid, and is neither the start
    nor the goal cell; listed pairs outside the grid are ignored. *)
Theorem setup_obstacle_flags (obstacles : list (Z * Z))
    (points : option ((Z * Z) * (Z * Z))) (gr : gmap pos Cell.t) (st en p : pos) :
  setup cols rows obstacles points = inr (gr, st, en) →
  Cell.obstacle (cell gr p) = true ↔
  p ∈ obstacles ∧ in_bounds cols rows p ∧ p ≠ st ∧ p ≠ en.
Proof.
  unfold setup.
  destruct (match points with Some q => q | None => _ end) as [sp ep].
  destruct (grid_index cols rows sp) as [|st'] eqn:Hs; [done|].
  destruct (grid_index cols rows ep) as [|en'] eqn:He; [done|].
  intros [= <- <- <-]. rewrite !cell_set_obstacle.
  repeat case_decide; subst; simpl; rewrite ?load_obstacles_flag.
  - naive_solver.
  - naive_solver.
  - naive_solver.
  - unfold cell at 1. rewrite lookup_empty. simpl. naive_solver.
Qed.

(** X6: [setup] succeeds exactly when the four coordinates of the two
    points (those given, or the defaults (64, 15) and (6, 51)) are valid
    Python indices, that is in [-cols, cols) and [-rows, rows); the start
    and goal cells are then the coordinates taken modulo the grid size
    (negative ones count from the far edge).  Otherwise it raises
    [IndexError]. *)
Theorem setup_endpoints (obstacles : list (Z * Z))
    (points : option ((Z * Z) * (Z * Z))) :
  let '(sp, ep) := default ((64, 15), (6, 51)) points in
  let valid (q : Z * Z) := - cols ≤ q.1 < cols ∧ - rows ≤ q.2 < rows in
  match setup cols rows obstacles points with
  | inr (gr, st, en) =>
      valid sp ∧ valid ep ∧
      st = (sp.1 `mod` cols, sp.2 `mod` rows) ∧
      en = (ep.1 `mod` cols, ep.2 `mod` rows)
  | inl e => e = IndexError ∧ ¬ (valid sp ∧ valid ep)
  end.
Proof.
  assert (∀ len i,
            match py_index len i with
            | inr k => - len ≤ i < len ∧ k = i `mod` len
            | inl e => e = IndexError ∧ ¬ (- len ≤ i < len)
            end) as Hidx.
  { intros len i. unfold py_index. repeat case_bool_decide.
    - split; [lia|]. by rewrite Z.mod_small.
    - split; [lia|]. symmetry.
      rewrite <- (Z.mod_add i 1 len) by lia.
      rewrite Z.mod_small by lia. lia.
    - split; [done|lia]. }
  assert (∀ q,
            match grid_index cols rows q with
            | inr k => (- cols ≤ q.1 < cols ∧ - rows ≤ q.2 < rows) ∧
                       k = (q.1 `mod` cols, q.2 `mod` rows)
            | inl e => e = IndexError ∧
                       ¬ (- cols ≤ q.1 < cols ∧ - rows ≤ q.2 < rows)
            end) as Hgi.
  { intros q. unfold grid_index.
    pose proof (Hidx cols q.1) as H1. pose proof (Hidx rows q.2) as H2.
    destruct (py_index cols q.1); [split; [tauto|]; tauto|].
    destruct (py_index rows q.2); [split; [tauto|]; tauto|].
    destruct H1 as [? ->], H2 as [? ->]. done. }
  unfold setup. destruct points as [[sp ep]|]; simpl.
  - pose proof (Hgi sp) as H1. pose proof (Hgi ep) as H2.
    destruct (grid_index cols rows sp); [split; [tauto|]; tauto|].
    destruct (grid_index cols rows ep); [split; [tauto|]; tauto|].
    tauto.
  - pose proof (Hgi (64, 15)) as H1. pose proof (Hgi (6, 51)) as H2.
    destruct (grid_index cols rows (64, 15)); [split; [tauto|]; tauto|].
    destruct (grid_index cols rows (6, 51)); [split; [tauto|]; tauto|].
    tauto.
Qed.
End Extras.

Section Engine_extras.
Variables cols rows : Z.

Lemma exec_step_keeps (s : AStarPathfinder) (p : pos) :
  Cell.obstacle (cell (grid (exec_step cols rows s)) p) = Cell.obstacle (cell (grid s) p) ∧
  path (exec_step cols rows s) = path s ∧
  closed_set s ⊆ closed_set (exec_step cols rows s) ∧
  (p ∈ closed_set s → cell (grid (exec_step cols rows s)) p = cell (grid s) p).
Proof.
  unfold exec_step.
  destruct (step_cases cols rows s)
    as [[_ ->]|[(_ & _ & ->)|(_ & fr & cur & open & _ & [[_ ->]|[_ ->]])]];
    cbn zeta; simpl; try done.
  split_and!; [apply relax_loop_obstacle|done|set_solver|].
  intros Hp. apply relax_loop_frozen. set_solver.
Qed.

(** X7: stepping never edits the grid: whatever the engine, after any
    number of calls of [step] every cell has the obstacle flag it had, and
    the start cell, the goal cell and the [path] attribute are the same. *)
Theorem run_keeps_grid (s : AStarPathfinder) (n : nat) (p : pos) :
  Cell.obstacle (cell (grid (run cols rows n s)) p) = Cell.obstacle (cell (grid s) p) ∧
  start (run cols rows n s) = start s ∧ end_ (run cols rows n s) = end_ s ∧
  path (run cols rows n s) = path s.
Proof.
  revert s. induction n as [|n IH]; intros s; [done|]. simpl.
  destruct (IH (exec_step cols rows s)) as (-> & -> & -> & ->).
  destruct (exec_step_keeps s p) as (-> & -> & _).
  destruct (exec_step_start cols rows s) as [-> ->]. done.
Qed.

(** X8: a closed cell is settled: it stays in the closed set, and its
    record (costs and parent) is never written again, however many more
    calls of [step] follow. *)
Theorem closed_cell_settled (s : AStarPathfinder) (n : nat) (c : pos) :
  c ∈ closed_set s →
  c ∈ closed_set (run cols rows n s) ∧
  cell (grid (run cols rows n s)) c = cell (grid s) c.
Proof.
  revert s. induction n as [|n IH]; intros s Hc; [done|]. simpl.
  destruct (exec_step_keeps s c) as (_ & _ & Hsub & Hfrozen).
  destruct (IH (exec_step cols rows s)) as [Hin Heq]; [set_solver|].
  split; [done|]. rewrite Heq. by apply Hfrozen.
Qed.

(** X9: an engine that has ended is idle: every further call of [step]
    returns [True] and leaves the engine exactly as it is. *)
Theorem ended_engine_idle (s : AStarPathfinder) (n : nat) :
  found s = true →
  step cols rows s = inr (s, true) ∧ run cols rows n s = s.
Proof.
  intros Hf. split; [|by apply found_run].
  destruct (step_cases cols rows s) as [[_ ?]|[(? & _)|(? & _)]];
    [done|congruence..].
Qed.

(** X10: when the start cell is the goal cell, the first call of [step]
    ends the search: it returns [True], the current cell is the start, the
    path is the start cell alone and no cell has been closed. *)
Theorem start_is_goal (obstacles : list (Z * Z))
    (points : option ((Z * Z) * (Z * Z))) (s0 : AStarPathfinder) :
  launch cols rows obstacles points = inr s0 →
  start s0 = end_ s0 →
  let s1 := exec_step cols rows s0 in
  step cols rows s0 = inr (s1, true) ∧ found s1 = true ∧
  current s1 = Some (start s0) ∧ get_path 1 s1 = Some [start s0] ∧
  closed_set s1 = ∅ ∧ open_set s1 = [].
Proof.
  intros Hl Heq s1.
  pose proof (launch_spec cols rows _ _ _ Hl)
    as (_ & _ & _ & Hfresh & Hopen & Hclosed & _ & Hfound).
  unfold s1, exec_step.
  destruct (step_cases cols rows s0)
    as [[? _]|[(_ & ? & _)|(_ & fr & cur & open & Hpop & [[Hend ->]|[Hend _]])]];
    [congruence|congruence| |].
  - rewrite Hopen in Hpop. change (Some ((0, start s0), []) = Some ((fr, cur), open)) in Hpop.
    simplify_eq. simpl. split_and!; try done; [by rewrite Heq|].
    unfold get_path. simpl.
    destruct (Hfresh (end_ s0)) as (_ & _ & ->). simpl. by rewrite Heq.
  - rewrite Hopen in Hpop. change (Some ((0, start s0), []) = Some ((fr, cur), open)) in Hpop.
    simplify_eq.
Qed.

Lemma current_walk_route (obstacles : list (Z * Z))
    (points : option ((Z * Z) * (Z * Z))) (s0 : AStarPathfinder)
    (n : nat) (c : pos) :
  launch cols rows obstacles points = inr s0 →
  current (run cols rows n s0) = Some c →
  let s := run cols rows n s0 in
  ∃ l, (∀ fuel, (Z.to_nat (Cell.g (cell (grid s) c)) < fuel)%nat →
                get_path fuel s = Some l) ∧
       route cols rows (grid s0) (start s0) c (reverse l) = true ∧
       Z.of_nat (length l) = Cell.g (cell (grid s) c) + 1.
Proof.
  intros Hl Hc s.
  destruct (launch_run_ok cols rows obstacles points s0 n Hl) as [Hok Hb].
  pose proof (launch_search_ok cols rows obstacles points s0 n Hl) as Hsk.
  destruct (run_start cols rows n s0) as [Hst Hen].
  fold s in Hok, Hb, Hsk, Hc, Hst, Hen.
  destruct (parent_walk_route cols rows _ _ _ _ _ _ (eng_store _ _ _ Hok)
              (es_search _ _ _ _ Hsk) Hb
              (S (Z.to_nat (Cell.g (cell (grid s) c)))) c)
    as (l & Hwalk & Hroute & Hlen).
  - by apply (eng_current _ _ _ Hok).
  - pose proof (ok_g _ _ _ _ _ _ (eng_store _ _ _ Hok) c). lia.
  - pose proof (sk_obstacle _ _ _ _ _ _ _ _ (es_search _ _ _ _ Hsk)) as Hob.
    exists l. split_and!; [| |done].
    + intros fuel Hfuel. unfold get_path. rewrite Hc. apply Hwalk. lia.
    + rewrite <- Hst. by rewrite <- (route_obstacle_ext cols rows (grid s)).
Qed.

(** X11: whenever the engine has a current cell, the list of [get_path],
    read backwards, is a 4-directional route on the grid from the start
    cell to the current cell over cells that are not obstacles, and it has
    one cell more than the cost [g] recorded for the current cell. *)
Theorem path_is_route (obstacles : list (Z * Z))
    (points : option ((Z * Z) * (Z * Z))) (s0 : AStarPathfinder)
    (n : nat) (c : pos) :
  launch cols rows obstacles points = inr s0 →
  current (run cols rows n s0) = Some c →
  let s := run cols rows n s0 in
  ∃ l, (∀ fuel, (Z.to_nat (Cell.g (cell (grid s) c)) < fuel)%nat →
                get_path fuel s = Some l) ∧
       route cols rows (grid s0) (start s0) c (reverse l) = true ∧
       Z.of_nat (length l) = Cell.g (cell (grid s) c) + 1.
Proof. apply current_walk_route. Qed.

Lemma exhausted_closed_reachable (obstacles : list (Z * Z))
    (points : option ((Z * Z) * (Z * Z))) (s0 : AStarPathfinder) (n : nat) :
  launch cols rows obstacles points = inr s0 →
  found (run cols rows n s0) = true →
  current (run cols rows n s0) ≠ Some (end_ s0) →
  ∀ c, c ∈ closed_set (run cols rows n s0) ↔
       ∃ l, route cols rows (grid s0) (start s0) c l = true.
Proof.
  intros Hl Hf Hcur c.
  destruct (launch_run_ok cols rows obstacles points s0 n Hl) as [Hok Hb].
  pose proof (launch_search_ok cols rows obstacles points s0 n Hl) as Hsk.
  destruct (run_start cols rows n s0) as [Hst Hen].
  set (s := run cols rows n s0) in *.
  pose proof (sk_obstacle _ _ _ _ _ _ _ _ (es_search _ _ _ _ Hsk)) as Hob.
  destruct (es_cover _ _ _ _ Hsk) as [[? _]|(Hsin & Hcover & Hnil)]; [congruence|].
  specialize (Hnil Hf). rewrite Hnil in Hsin, Hcover.
  assert (start s ∈ closed_set s) as Hsc.
  { destruct Hsin as [?|?%elem_of_nil]; done. }
  split.
  - intros Hc.
    destruct (parent_walk_route cols rows _ _ _ _ _ _ (eng_store _ _ _ Hok)
                (es_search _ _ _ _ Hsk) Hb
                (S (Z.to_nat (Cell.g (cell (grid s) c)))) c)
      as (l & _ & Hroute & _).
    + destruct (decide (c = start s)); [by left|right].
      eapply ok_linked; [apply Hok|by right|done].
    + pose proof (ok_g _ _ _ _ _ _ (eng_store _ _ _ Hok) c). lia.
    + exists (reverse l). rewrite <- Hst.
      by rewrite <- (route_obstacle_ext cols rows (grid s)).
  - intros [l Hroute].
    rewrite <- (route_obstacle_ext cols rows (grid s)), <- Hst in Hroute by done.
    unfold route in Hroute.
    apply andb_true_iff in Hroute as [[[Hh%bool_decide_eq_true Hl'%bool_decide_eq_true]%andb_true_iff
                                        Hfree]%andb_true_iff Hlink].
    eapply (closed_under_routes cols rows (grid s) (closed_set s)); try done.
    + intros a Ha. eapply ok_bounds; [apply Hok|by right].
    + destruct l as [|x l] using rev_ind; [done|].
      rewrite last_snoc in Hl'. simplify_eq. set_solver.
Qed.

(** X12: when the engine has ended, its current cell is the goal exactly
    when the grid has a 4-directional route from the start to the goal
    over cells that are not obstacles: a goal that can be reached is
    found, and one that cannot be reached is never reported. *)
Theorem ends_on_goal_iff_route (obstacles : list (Z * Z))
    (points : option ((Z * Z) * (Z * Z))) (s0 : AStarPathfinder) (n : nat) :
  launch cols rows obstacles points = inr s0 →
  found (run cols rows n s0) = true →
  current (run cols rows n s0) = Some (end_ s0) ↔
  ∃ l, route cols rows (grid s0) (start s0) (end_ s0) l = true.
Proof.
  intros Hl Hf. split.
  - intros Hc.
    destruct (current_walk_route obstacles points s0 n (end_ s0) Hl Hc)
      as (l & _ & Hroute & _).
    by exists (reverse l).
  - intros Hroute.
    destruct (decide (current (run cols rows n s0) = Some (end_ s0))) as [|Hne];
      [done|exfalso].
    apply (exhausted_closed_reachable obstacles points s0 n Hl Hf Hne) in Hroute.
    pose proof (launch_search_ok cols rows obstacles points s0 n Hl) as Hsk.
    destruct (run_start cols rows n s0) as [_ Hen].
    apply (sk_goal _ _ _ _ _ _ _ _ (es_search _ _ _ _ Hsk)).
    by rewrite Hen.
Qed.

(** X13: when the engine has ended without reaching the goal, the closed
    set is exactly the set of cells that can be reached from the start
    cell by a 4-directional route over cells that are not obstacles. *)
Theorem exhausted_visits_reachable (obstacles : list (Z * Z))
    (points : option ((Z * Z) * (Z * Z))) (s0 : AStarPathfinder) (n : nat)
    (c : pos) :
  launch cols rows obstacles points = inr s0 →
  found (run cols rows n s0) = true →
  current (run cols rows n s0) ≠ Some (end_ s0) →
  c ∈ closed_set (run cols rows n s0) ↔
  ∃ l, route cols rows (grid s0) (start s0) c l = true.
Proof.
  intros Hl Hf Hc.
  apply (exhausted_closed_reachable obstacles points s0 n Hl Hf Hc).
Qed.

(** X14: the records keep the estimates in step: every cell in the open
    or closed set other than the start has [h] equal to its Manhattan
    distance to the goal, [f = g + h], and [g] one more than the [g] of
    its parent; and the estimate recorded in an entry of the open set is
    never below the current [f] of its cell. *)
Theorem estimates_recorded (obstacles : list (Z * Z))
    (points : option ((Z * Z) * (Z * Z))) (s0 : AStarPathfinder) (n : nat) :
  launch cols rows obstacles points = inr s0 →
  let s := run cols rows n s0 in
  (∀ c, c ∈ get_open_nodes s ∨ c ∈ closed_set s → c ≠ start s0 →
        Cell.h (cell (grid s) c) = heuristic c (end_ s0) ∧
        Cell.f (cell (grid s) c) = Cell.g (cell (grid s) c) + Cell.h (cell (grid s) c) ∧
        ∃ p, Cell.parent (cell (grid s) c) = Some p ∧
             Cell.g (cell (grid s) c) = Cell.g (cell (grid s) p) + 1) ∧
  (∀ e : entry, e ∈ open_set s → Cell.f (cell (grid s) e.2) ≤ e.1).
Proof.
  intros Hl s.
  destruct (launch_run_ok cols rows obstacles points s0 n Hl) as [Hok Hb].
  pose proof (launch_search_ok cols rows obstacles points s0 n Hl) as Hsk.
  destruct (run_start cols rows n s0) as [Hst Hen].
  fold s in Hok, Hb, Hsk, Hst, Hen. split.
  - intros c Hc Hne.
    assert (is_Some (Cell.parent (cell (grid s) c))) as Hsome.
    { eapply ok_linked; [apply Hok|done|by rewrite Hst]. }
    destruct (sk_estimate _ _ _ _ _ _ _ _ (es_search _ _ _ _ Hsk) c Hsome) as [Hh Hf].
    rewrite Hen in Hh. split_and!; [done|done|].
    destruct Hsome as [p Hp]. exists p. split; [done|].
    by destruct (ok_parent _ _ _ _ _ _ (eng_store _ _ _ Hok) c p Hp).
  - apply (sk_entry _ _ _ _ _ _ _ _ (es_search _ _ _ _ Hsk)).
Qed.

(** X15: no obstacle is ever opened or closed: every cell in the open set
    or in the closed set lies inside the grid and is not an obstacle, and
    the goal cell is never put into the closed set. *)
Theorem open_and_closed_cells_free (obstacles : list (Z * Z))
    (points : option ((Z * Z) * (Z * Z))) (s0 : AStarPathfinder) (n : nat) :
  launch cols rows obstacles points = inr s0 →
  let s := run cols rows n s0 in
  (∀ c, c ∈ get_open_nodes s ∨ c ∈ closed_set s →
        in_bounds cols rows c ∧ Cell.obstacle (cell (grid s) c) = false) ∧
  end_ s0 ∉ closed_set s.
Proof.
  intros Hl s.
  destruct (launch_run_ok cols rows obstacles points s0 n Hl) as [Hok Hb].
  pose proof (launch_search_ok cols rows obstacles points s0 n Hl) as Hsk.
  destruct (run_start cols rows n s0) as [Hst Hen].
  fold s in Hok, Hb, Hsk, Hst, Hen. split.
  - intros c Hc. split; [eapply ok_bounds; [apply Hok|done]|].
    destruct (decide (c = start s)) as [->|Hne].
    + apply (sk_start _ _ _ _ _ _ _ _ (es_search _ _ _ _ Hsk)).
    + destruct (ok_linked _ _ _ _ _ _ (eng_store _ _ _ Hok) c Hc Hne) as [p Hp].
      by destruct (sk_parent _ _ _ _ _ _ _ _ (es_search _ _ _ _ Hsk) c p Hp).
  - rewrite <- Hen. apply (sk_goal _ _ _ _ _ _ _ _ (es_search _ _ _ _ Hsk)).
Qed.
End Engine_extras.

(** * Further properties on the farm grid *)

Lemma heuristic_consistent_witness :
  in_bounds COLS ROWS (3, 3) ∧ (4, 3) ∈ add_neighbors COLS ROWS (3, 3) ∧
  heuristic (3, 3) (6, 51) ≤ cost (3, 3) (4, 3) + heuristic (4, 3) (6, 51) ∧
  Z.abs (heuristic (3, 3) (6, 51) - heuristic (4, 3) (6, 51)) = 1.
Proof.
  assert (in_bounds COLS ROWS (3, 3)) as Hb by (unfold in_bounds, COLS, ROWS; simpl; lia).
  assert ((4, 3) ∈ add_neighbors COLS ROWS (3, 3)) as Hn by (by left).
  split; [done|]. split; [done|].
  apply (heuristic_consistent COLS ROWS (3, 3) (4, 3) (6, 51)); done.
Defined.

Lemma add_neighbors_adjacent_witness :
  in_bounds COLS ROWS (0, 64) ∧
  ((1, 64) ∈ add_neighbors COLS ROWS (0, 64) ↔
   in_bounds COLS ROWS (1, 64) ∧ heuristic (0, 64) (1, 64) = 1) ∧
  ((1, 64) ∈ add_neighbors COLS ROWS (0, 64) →
   (0, 64) ∈ add_neighbors COLS ROWS (1, 64)).
Proof.
  assert (in_bounds COLS ROWS (0, 64)) as Hb by (unfold in_bounds, COLS, ROWS; simpl; lia).
  split; [done|].
  apply (add_neighbors_adjacent COLS ROWS (0, 64) (1, 64)). done.
Defined.

Lemma setup_obstacle_flags_witness :
  let gr := set_obstacle false (6, 51) (set_obstacle false (64, 15)
              (foldl (load_obstacle COLS ROWS) ∅ [(64, 15); (3, 4); (80, 2)])) in
  setup COLS ROWS [(64, 15); (3, 4); (80, 2)] None = inr (gr, (64, 15), (6, 51)) ∧
  (Cell.obstacle (cell gr (3, 4)) = true ↔
   (3, 4) ∈ [(64, 15); (3, 4); (80, 2)] ∧ in_bounds COLS ROWS (3, 4) ∧
   (3, 4) ≠ (64, 15) ∧ (3, 4) ≠ (6, 51)).
Proof.
  intros gr. split; [reflexivity|].
  apply (setup_obstacle_flags COLS ROWS [(64, 15); (3, 4); (80, 2)] None).
  reflexivity.
Defined.

Lemma closed_cell_settled_witness :
  let s := run COLS ROWS 3 (farm [] None) in
  (64, 15) ∈ closed_set s ∧
  (64, 15) ∈ closed_set (run COLS ROWS 40 s) ∧
  cell (grid (run COLS ROWS 40 s)) (64, 15) = cell (grid s) (64, 15).
Proof.
  intros s.
  assert ((64, 15) ∈ closed_set s) as Hc
    by (apply (bool_decide_unpack _); by vm_compute).
  split; [done|]. by apply (closed_cell_settled COLS ROWS s 40 (64, 15)).
Defined.

Lemma ended_engine_idle_witness :
  let s := run COLS ROWS 2 (farm fenced_obstacles (Some fenced_points)) in
  found s = true ∧ step COLS ROWS s = inr (s, true) ∧ run COLS ROWS 7 s = s.
Proof.
  intros s. split; [reflexivity|].
  apply (ended_engine_idle COLS ROWS s 7). reflexivity.
Defined.

Lemma start_is_goal_witness :
  let s0 := farm [] (Some ((5, 5), (5, 5))) in
  let s1 := exec_step COLS ROWS s0 in
  launch COLS ROWS [] (Some ((5, 5), (5, 5))) = inr s0 ∧ start s0 = end_ s0 ∧
  step COLS ROWS s0 = inr (s1, true) ∧ found s1 = true ∧
  current s1 = Some (start s0) ∧ get_path 1 s1 = Some [start s0] ∧
  closed_set s1 = ∅ ∧ open_set s1 = [].
Proof.
  split; [reflexivity|]. split; [reflexivity|].
  apply (start_is_goal COLS ROWS [] (Some ((5, 5), (5, 5)))); reflexivity.
Defined.

Lemma path_is_route_witness :
  let s0 := farm pocket_obstacles (Some pocket_points) in
  let s := run COLS ROWS 19 s0 in
  let c : pos := (6, 0) in
  launch COLS ROWS pocket_obstacles (Some pocket_points) = inr s0 ∧
  current s = Some c ∧
  ∃ l, (∀ fuel, (Z.to_nat (Cell.g (cell (grid s) c)) < fuel)%nat →
                get_path fuel s = Some l) ∧
       route COLS ROWS (grid s0) (start s0) c (reverse l) = true ∧
       Z.of_nat (length l) = Cell.g (cell (grid s) c) + 1.
Proof.
  split; [reflexivity|]. split; [by vm_compute|].
  apply (path_is_route COLS ROWS pocket_obstacles (Some pocket_points)
           (farm pocket_obstacles (Some pocket_points)) 19 (6, 0));
    [reflexivity|by vm_compute].
Defined.

Lemma ends_on_goal_iff_route_witness :
  let s0 := farm pocket_obstacles (Some pocket_points) in
  launch COLS ROWS pocket_obstacles (Some pocket_points) = inr s0 ∧
  found (run COLS ROWS 19 s0) = true ∧
  (current (run COLS ROWS 19 s0) = Some (end_ s0) ↔
   ∃ l, route COLS ROWS (grid s0) (start s0) (end_ s0) l = true).
Proof.
  split; [reflexivity|]. split; [by vm_compute|].
  apply (ends_on_goal_iff_route COLS ROWS pocket_obstacles (Some pocket_points)
           (farm pocket_obstacles (Some pocket_points)) 19);
    [reflexivity|by vm_compute].
Defined.

Lemma exhausted_visits_reachable_witness :
  let s0 := farm fenced_obstacles (Some fenced_points) in
  let c : pos := (0, 0) in
  launch COLS ROWS fenced_obstacles (Some fenced_points) = inr s0 ∧
  found (run COLS ROWS 2 s0) = true ∧
  current (run COLS ROWS 2 s0) ≠ Some (end_ s0) ∧
  (c ∈ closed_set (run COLS ROWS 2 s0) ↔
   ∃ l, route COLS ROWS (grid s0) (start s0) c l = true).
Proof.
  intros s0 c.
  assert (current (run COLS ROWS 2 s0) ≠ Some (end_ s0)) as Hne
    by (vm_compute; congruence).
  split; [reflexivity|]. split; [by vm_compute|]. split; [done|].
  apply (exhausted_visits_reachable COLS ROWS fenced_obstacles (Some fenced_points)
           s0 2 c); [reflexivity|by vm_compute|done].
Defined.

Lemma estimates_recorded_witness :
  let s0 := farm [] None in
  let s := run COLS ROWS 4 s0 in
  launch COLS ROWS [] None = inr s0 ∧
  (∀ c, c ∈ get_open_nodes s ∨ c ∈ closed_set s → c ≠ start s0 →
        Cell.h (cell (grid s) c) = heuristic c (end_ s0) ∧
        Cell.f (cell (grid s) c) = Cell.g (cell (grid s) c) + Cell.h (cell (grid s) c) ∧
        ∃ p, Cell.parent (cell (grid s) c) = Some p ∧
             Cell.g (cell (grid s) c) = Cell.g (cell (grid s) p) + 1) ∧
  (∀ e : entry, e ∈ open_set s → Cell.f (cell (grid s) e.2) ≤ e.1).
Proof.
  split; [reflexivity|].
  apply (estimates_recorded COLS ROWS [] None (farm [] None) 4). reflexivity.
Defined.

Lemma open_and_closed_cells_free_witness :
  let s0 := farm pocket_obstacles (Some pocket_points) in
  let s := run COLS ROWS 12 s0 in
  launch COLS ROWS pocket_obstacles (Some pocket_points) = inr s0 ∧
  (∀ c, c ∈ get_open_nodes s ∨ c ∈ closed_set s →
        in_bounds COLS ROWS c ∧ Cell.obstacle (cell (grid s) c) = false) ∧
  end_ s0 ∉ closed_set s.
Proof.
  split; [reflexivity|].
  apply (open_and_closed_cells_free COLS ROWS pocket_obstacles (Some pocket_points)
           (farm pocket_obstacles (Some pocket_points)) 12).
  reflexivity.
Defined.
